(** * django_compositeform.forms: composite forms over a host form framework

    A shallow embedding of [django_compositeform/forms.py]: the declaration
    collector run by the metaclasses, the validation mixin
    ([CompositeFormMixin]) and the persistence mixin
    ([CompositeModelFormMixin]).

    Conventions of the embedding:
    - a [SortedDict] is an association list in key order; [setitem] keeps the
      position of a key that is already present and replaces its value;
    - plain dictionaries whose order is never observed (the parent's error
      collection, the instance attributes holding callables) are [gmap]s;
    - callables stored on instances are first-order closures ([callback]),
      each constructor recording exactly what the Python closure captures;
    - calls into collaborators (the host framework, the fields, the
      composites) are recorded in an event log kept next to the form; the
      collaborators themselves cannot write to it;
    - a Python exception raised by this layer's own dictionary accesses is
      [None] in the [option] monad. *)

From stdpp Require Import base option list strings gmap sorting.

Local Open Scope string_scope.
Local Open Scope nat_scope.
Local Open Scope list_scope.

#[local] Set Warnings "-register-all,-clear-no-such-hyp".

(** ** Ordered dictionaries *)

Module SortedDict.

Definition t (V : Type) : Type := list (string * V).

Section ops.
Context {V : Type}.

Definition empty : t V := [].

(** [d.keys()]: the key order. *)
Definition keys (d : t V) : list string := d.*1.

(** [d.items()]: the pairs in key order. *)
Definition items (d : t V) : list (string * V) := d.

(** [d[key]]; [None] stands for [KeyError]. *)
Fixpoint get (key : string) (d : t V) : option V :=
  match d with
  | [] => None
  | (k, v) :: d' => if decide (k = key) then Some v else get key d'
  end.

(** [d[key] = value]: a new key is appended to the key order, a key that
    is present keeps its position and takes the new value. *)
Fixpoint setitem (key : string) (value : V) (d : t V) : t V :=
  match d with
  | [] => [(key, value)]
  | (k, v) :: d' =>
      if decide (k = key) then (k, value) :: d'
      else (k, v) :: setitem key value d'
  end.

(** [SortedDict(data)] for a list of pairs: the ordering is taken from
    the first occurrence of a key, the value from the last one. *)
Definition of_list (data : list (string * V)) : t V :=
  foldl (fun d kv => setitem kv.1 kv.2 d) empty data.

(** The representation invariant: no key occurs twice. *)
Definition wf (d : t V) : Prop := NoDup (keys d).

End ops.

End SortedDict.

(** ** Error structures of the host framework

    [EList] is the framework's [ErrorList], [EDict] its [ErrorDict]; the
    leaves are messages. *)

Inductive errval : Type :=
| EStr (msg : string)
| EList (l : list errval)
| EDict (d : list (string * errval)).

Definition is_list_shaped (v : errval) : bool :=
  match v with EList _ => true | _ => false end.

Definition is_dict_shaped (v : errval) : bool :=
  match v with EDict _ => true | _ => false end.

(** ** Callables held by instances

    [cb_native tag] is a bound method supplied by a collaborator (the host
    framework's deferred many-to-many save, a composite's own [save_m2m]);
    calling it is an external effect, recorded as [tag].  The other three
    constructors are the closures built in [_extend_save_m2m]. *)

Inductive callback : Type :=
| cb_native (tag : string)
| cb_lambda_None
| cb_additional_saves (additional_save_m2m : list callback)
| cb_augmented_save_m2m (_original_save_m2m additional_saves : callback).


(** ** Collaborators *)

(** The two kinds of composites: a sub-form or a sub-formset. *)
Inductive kind : Type := KForm | KFormset.

#[global] Instance kind_eq_dec : EqDecision kind.
Proof. solve_decision. Defined.

(** The [errors] attribute of a composite: a dictionary for a form, a list
    (one dictionary per item) for a formset. *)
Definition errors_of (k : kind) : Type :=
  match k with
  | KForm => list (string * errval)
  | KFormset => list errval
  end.

(** A composite, as far as this layer observes it: the answer of
    [is_valid()] and the value of [errors] once [full_clean()] has run, and
    the [save_m2m] attribute when the composite carries one. *)
Record Composite (k : kind) : Type := mkComposite {
  c_is_valid : bool;
  c_errors : errors_of k;
  c_save_m2m : option callback;
}.
Arguments mkComposite {k} _ _ _.
Arguments c_is_valid {k} _.
Arguments c_errors {k} _.
Arguments c_save_m2m {k} _.

(** The state the host framework keeps on a form instance. [_errors] is
    [None] until the first validation; [attrs] holds the callables set as
    instance attributes ([save_m2m] and the two partial callbacks). *)
Record HostForm : Type := mkHostForm {
  is_bound : bool;
  _errors : option (gmap string errval);
  instance : nat;
  attrs : gmap string callback;
}.

Definition set_errors (e : option (gmap string errval)) (h : HostForm) : HostForm :=
  mkHostForm (is_bound h) e (instance h) (attrs h).

Definition set_attrs (a : gmap string callback) (h : HostForm) : HostForm :=
  mkHostForm (is_bound h) (_errors h) (instance h) a.

(** Modelled from the spec: the class [CompositeField] of the module
    [.fields], which is not part of the sources at hand.  A field carries a
    creation counter and three optional capabilities, [get_form(parent,
    name)], [get_formset(parent, name)] and [save(parent, name, composite,
    commit)]; an absent capability is [None] (the code tests for it with
    [hasattr]).  [save] acts on the composite it is handed, whichever its
    kind. *)
Module CompositeField.
Record t : Type := mk {
  creation_counter : nat;
  get_form : option (HostForm → string → Composite KForm);
  get_formset : option (HostForm → string → Composite KFormset);
  save : option (∀ k, HostForm → string → Composite k → bool → Composite k);
}.
End CompositeField.

(** ** The declaration collector *)

(** A value bound in a class namespace: a composite field or anything else
    ([isinstance(obj, CompositeField)]). *)
Inductive attr_value : Type :=
| AComposite (field : CompositeField.t)
| AOther (description : string).

(** A base class: it may or may not have a [composite_fields] attribute. *)
Record base_class : Type := mkBase {
  base_composite_fields : option (SortedDict.t CompositeField.t);
}.

Definition as_composite (entry : string * attr_value)
    : option (string * CompositeField.t) :=
  match entry.2 with
  | AComposite field => Some (entry.1, field)
  | AOther _ => None
  end.

Definition is_composite (entry : string * attr_value) : bool :=
  match entry.2 with AComposite _ => true | AOther _ => false end.

(** [list.sort(key=lambda x: x[1].creation_counter)]: a stable sort, here by
    insertion. *)
Fixpoint insert_by_counter (x : string * CompositeField.t)
    (l : list (string * CompositeField.t)) : list (string * CompositeField.t) :=
  match l with
  | [] => [x]
  | y :: l' =>
      if decide (CompositeField.creation_counter x.2
                 ≤ CompositeField.creation_counter y.2)
      then x :: y :: l'
      else y :: insert_by_counter x l'
  end.

Definition sort_by_counter (l : list (string * CompositeField.t))
    : list (string * CompositeField.t) :=
  foldr insert_by_counter [] l.

(** [get_declared_composite_fields(bases, attrs)].  [attrs] is the class
    namespace in iteration order.  The result is the collected mapping
    together with the namespace once the composite fields have been popped
    from it. *)
Definition get_declared_composite_fields
    (bases : list base_class) (attrs : list (string * attr_value))
    : SortedDict.t CompositeField.t * list (string * attr_value) :=
  let composite_fields := omap as_composite attrs in
  let attrs' := filter (fun entry => is_composite entry = false) attrs in
  let composite_fields := sort_by_counter composite_fields in
  let composite_fields :=
    foldl (fun composite_fields base =>
             match base_composite_fields base with
             | Some base_fields => SortedDict.items base_fields ++ composite_fields
             | None => composite_fields
             end)
          composite_fields (reverse bases) in
  (SortedDict.of_list composite_fields, attrs').

(** ** Form instances *)

(** What this layer asks of its collaborators, in the order it asks. *)
Inductive event : Type :=
| EvSuperFullClean
| EvSuperSave (commit : bool)
| EvGetForm (name : string)
| EvGetFormset (name : string)
| EvFullClean (k : kind) (name : string)
| EvFieldSave (k : kind) (name : string) (commit : bool).

(** An instance of a class that uses the mixins: the host framework's state,
    the class attribute [composite_fields], the two per-instance mappings and
    the log of calls made to collaborators. *)
Record Form : Type := mkForm {
  host : HostForm;
  composite_fields : SortedDict.t CompositeField.t;
  forms : SortedDict.t (Composite KForm);
  formsets : SortedDict.t (Composite KFormset);
  log : list event;
}.

Definition set_host (h : HostForm) (self : Form) : Form :=
  mkForm h (composite_fields self) (forms self) (formsets self) (log self).

Definition set_forms (d : SortedDict.t (Composite KForm)) (self : Form) : Form :=
  mkForm (host self) (composite_fields self) d (formsets self) (log self).

Definition set_formsets (d : SortedDict.t (Composite KFormset)) (self : Form) : Form :=
  mkForm (host self) (composite_fields self) (forms self) d (log self).

Definition log_event (e : event) (self : Form) : Form :=
  mkForm (host self) (composite_fields self) (forms self) (formsets self)
         (log self ++ [e]).

(** [self.forms] or [self.formsets], by kind. *)
Definition composites (k : kind) (self : Form) : SortedDict.t (Composite k) :=
  match k with
  | KForm => forms self
  | KFormset => formsets self
  end.

Definition set_composites (k : kind) : SortedDict.t (Composite k) → Form → Form :=
  match k with
  | KForm => set_forms
  | KFormset => set_formsets
  end.

(** [getattr(self, name)] and [setattr(self, name, value)] for callables. *)
Definition getattr (name : string) (self : Form) : option callback :=
  attrs (host self) !! name.

Definition setattr (name : string) (value : callback) (self : Form) : Form :=
  set_host (set_attrs (<[name := value]> (attrs (host self))) (host self)) self.

(** [self._errors[key] = value]; assigning into [None] raises. *)
Definition set_error (key : string) (value : errval) (self : Form) : option Form :=
  e ← _errors (host self);
  Some (set_host (set_errors (Some (<[key := value]> e)) (host self)) self).

(** A [for] loop whose body may raise. *)
Fixpoint foldlM {A B : Type} (body : A → B → option A) (a : A) (l : list B)
    : option A :=
  match l with
  | [] => Some a
  | x :: l' => a' ← body a x; foldlM body a' l'
  end.

(** ** The host framework's form classes

    The methods the mixins inherit unchanged or call through [super].  The
    validation and the save of the framework itself are parameters:
    [super_full_clean] and [super_save] act on the framework's own state. *)

Module BaseForm.
Section methods.
Variable super_full_clean : HostForm → HostForm.
(** The [full_clean] the instance's class resolves to. *)
Variable full_clean : Form → option Form.

(** [full_clean] of a form class without the mixin. *)
Definition base_full_clean (self : Form) : option Form :=
  Some (log_event EvSuperFullClean
          (set_host (super_full_clean (host self)) self)).

(** The [errors] property: validates on first access. *)
Definition errors (self : Form)
    : option (option (gmap string errval) * Form) :=
  match _errors (host self) with
  | None => self ← full_clean self; Some (_errors (host self), self)
  | Some e => Some (Some e, self)
  end.

(** [is_valid()]: [self.is_bound and not bool(self.errors)]. *)
Definition is_valid (self : Form) : option (bool * Form) :=
  if is_bound (host self) then
    '(e, self) ← errors self;
    Some (match e with
          | Some e => bool_decide (size e = 0)
          | None => true
          end, self)
  else Some (false, self).
End methods.
End BaseForm.

Module ModelForm.
Section methods.
Variable super_save : bool → HostForm → nat * HostForm.

(** [save] of a model form class without the mixin. *)
Definition base_save (commit : bool) (self : Form) : option (nat * Form) :=
  let '(saved_obj, h) := super_save commit (host self) in
  Some (saved_obj, log_event (EvSuperSave commit) (set_host h self)).
End methods.
End ModelForm.

(** ** CompositeFormMixin *)

Module CompositeFormMixin.
Section methods.
Variable super_full_clean : HostForm → HostForm.

Definition _init_composite_fields (self : Form) : Form :=
  let self := set_forms SortedDict.empty self in
  let self := set_formsets SortedDict.empty self in
  foldl (fun self entry =>
           let '(name, field) := entry in
           let self :=
             match CompositeField.get_form field with
             | Some get_form =>
                 let form := get_form (host self) name in
                 set_forms (SortedDict.setitem name form (forms self))
                           (log_event (EvGetForm name) self)
             | None => self
             end in
           match CompositeField.get_formset field with
           | Some get_formset =>
               let formset := get_formset (host self) name in
               set_formsets (SortedDict.setitem name formset (formsets self))
                            (log_event (EvGetFormset name) self)
           | None => self
           end)
        self (SortedDict.items (composite_fields self)).

(** [__init__]: [h] is the state left by the framework's own
    initialiser, [cls_fields] the class attribute [composite_fields]. *)
Definition __init__ (cls_fields : SortedDict.t CompositeField.t)
    (h : HostForm) : Form :=
  _init_composite_fields
    (mkForm h cls_fields SortedDict.empty SortedDict.empty []).

Definition full_clean (self : Form) : option Form :=
  let self := log_event EvSuperFullClean
                (set_host (super_full_clean (host self)) self) in
  self ← foldlM (fun self (entry : string * Composite KForm) =>
                   let '(key, composite) := entry in
                   let self := log_event (EvFullClean KForm key) self in
                   if negb (c_is_valid composite)
                   then set_error key (EDict (c_errors composite)) self
                   else Some self)
                self (SortedDict.items (forms self));
  foldlM (fun self (entry : string * Composite KFormset) =>
            let '(key, composite) := entry in
            let self := log_event (EvFullClean KFormset key) self in
            if negb (c_is_valid composite)
            then set_error key (EList (c_errors composite)) self
            else Some self)
         self (SortedDict.items (formsets self)).

(** Inherited from the framework, dispatching to [full_clean] above. *)
Definition errors := BaseForm.errors full_clean.
Definition is_valid := BaseForm.is_valid full_clean.
End methods.
End CompositeFormMixin.

(** ** CompositeModelFormMixin *)

Module CompositeModelFormMixin.
Section methods.
Variable super_save : bool → HostForm → nat * HostForm.

Definition _extend_save_m2m {k : kind} (name : string)
    (composites : list (Composite k)) (self : Form) : Form :=
  let additional_save_m2m := omap c_save_m2m composites in
  match additional_save_m2m with
  | [] => self
  | _ :: _ =>
      let additional_saves := cb_additional_saves additional_save_m2m in
      let _original_save_m2m :=
        match getattr "save_m2m" self with
        | Some save_m2m => save_m2m
        | None => cb_lambda_None
        end in
      let augmented_save_m2m :=
        cb_augmented_save_m2m _original_save_m2m additional_saves in
      let self := setattr "save_m2m" augmented_save_m2m self in
      setattr name additional_saves self
  end.

(** The body of the loops of [save_forms] and [save_formsets].  The
    composite is changed in place by the field's [save]: the mapping and
    the list of saved composites both see it as it is afterwards. *)
Definition save_composite (k : kind) (commit : bool)
    (st : Form * list (Composite k)) (entry : string * Composite k)
    : option (Form * list (Composite k)) :=
  let '(self, saved_composites) := st in
  let '(name, composite) := entry in
  field ← SortedDict.get name (composite_fields self);
  match CompositeField.save field with
  | Some save =>
      let composite := save k (host self) name composite commit in
      let self :=
        set_composites k
          (SortedDict.setitem name composite (composites k self))
          (log_event (EvFieldSave k name commit) self) in
      Some (self, saved_composites ++ [composite])
  | None => Some (self, saved_composites)
  end.

Definition save_forms (commit : bool) (self : Form) : option Form :=
  '(self, saved_composites) ←
    foldlM (save_composite KForm commit) (self, [])
           (SortedDict.items (forms self));
  Some (_extend_save_m2m "save_forms_m2m" saved_composites self).

Definition save_formsets (commit : bool) (self : Form) : option Form :=
  '(self, saved_composites) ←
    foldlM (save_composite KFormset commit) (self, [])
           (SortedDict.items (formsets self));
  Some (_extend_save_m2m "save_formsets_m2m" saved_composites self).

Definition save (commit : bool) (self : Form) : option (nat * Form) :=
  let '(saved_obj, h) := super_save commit (host self) in
  let self := log_event (EvSuperSave commit) (set_host h self) in
  self ← save_forms commit self;
  self ← save_formsets commit self;
  Some (saved_obj, self).
End methods.
End CompositeModelFormMixin.

(** ** Vocabulary of the statements *)

(** The composite fields a class body declares, in namespace order. *)
Definition declared_fields (attrs : list (string * attr_value))
    : list (string * CompositeField.t) :=
  omap as_composite attrs.

(** What the bases contribute, first base first. *)
Definition inherited_items (bases : list base_class)
    : list (string * CompositeField.t) :=
  mjoin ((fun base => default [] (SortedDict.items <$> base_composite_fields base))
           <$> bases).

(** The first occurrence of every element, in order. *)
Fixpoint first_occurrences (l : list string) : list string :=
  match l with
  | [] => []
  | x :: l' => x :: filter (fun y => y ≠ x) (first_occurrences l')
  end.

Definition counter_le (x y : string * CompositeField.t) : Prop :=
  CompositeField.creation_counter x.2 ≤ CompositeField.creation_counter y.2.

Definition has_counter (c : nat) (x : string * CompositeField.t) : Prop :=
  CompositeField.creation_counter x.2 = c.

#[global] Instance has_counter_dec c x : Decision (has_counter c x).
Proof. unfold has_counter. apply _. Defined.

(** * Properties *)

(** ** Lists *)

Lemma filter_all {A : Type} (P : A → Prop) `{∀ x, Decision (P x)} (l : list A) :
  (∀ x, x ∈ l → P x) → filter P l = l.
Proof.
  induction l as [|x l IH]; intros Hall; [done |].
  rewrite filter_cons_True by (apply Hall; by left).
  f_equal. apply IH. intros y Hy. apply Hall. by right.
Qed.

(** ** Ordered dictionaries *)

Section SortedDict_facts.
Context {V : Type}.
Implicit Types (d : SortedDict.t V) (l : list (string * V)).

Lemma keys_setitem key (v : V) d :
  SortedDict.keys (SortedDict.setitem key v d)
  = if decide (key ∈ SortedDict.keys d) then SortedDict.keys d
    else SortedDict.keys d ++ [key].
Proof.
  unfold SortedDict.keys.
  induction d as [|[k w] d IH]; cbn [SortedDict.setitem].
  - rewrite decide_False; [done | by intros ?%elem_of_nil].
  - rewrite fmap_cons.
    destruct (decide (k = key)) as [->|Hne]; rewrite fmap_cons; cbn [fst].
    + rewrite decide_True; [done | by left].
    + rewrite IH. destruct (decide (key ∈ d.*1)) as [Hin|Hnin].
      * rewrite decide_True; [done | by right].
      * rewrite decide_False; [done |].
        intros [?|?]%elem_of_cons; congruence.
Qed.

Lemma get_setitem key key' (v : V) d :
  SortedDict.get key' (SortedDict.setitem key v d)
  = if decide (key = key') then Some v else SortedDict.get key' d.
Proof.
  induction d as [|[k w] d IH]; simpl.
  - by destruct (decide (key = key')).
  - destruct (decide (k = key)) as [->|Hne]; simpl.
    + by destruct (decide (key = key')).
    + destruct (decide (k = key')) as [->|Hne'].
      * by rewrite decide_False by congruence.
      * done.
Qed.

Lemma get_Some_elem_of key (v : V) d :
  SortedDict.get key d = Some v → (key, v) ∈ SortedDict.items d.
Proof.
  unfold SortedDict.items.
  induction d as [|[k w] d IH]; simpl; [done |].
  destruct (decide (k = key)) as [->|Hne].
  - intros [= ->]. by left.
  - intros H. right. by apply IH.
Qed.

Lemma get_is_Some key d :
  is_Some (SortedDict.get key d) ↔ key ∈ SortedDict.keys d.
Proof.
  unfold SortedDict.keys.
  induction d as [|[k w] d IH]; simpl.
  - split; [by intros [? ?] | by intros ?%elem_of_nil].
  - destruct (decide (k = key)) as [->|Hne].
    + split; [intros _; by left | by eauto].
    + rewrite IH. split; [by right |].
      intros [?|?]%elem_of_cons; [congruence | done].
Qed.

Lemma elem_of_get key (v : V) d :
  SortedDict.wf d → (key, v) ∈ SortedDict.items d →
  SortedDict.get key d = Some v.
Proof.
  unfold SortedDict.wf, SortedDict.keys, SortedDict.items.
  induction d as [|[k w] d IH]; cbn [SortedDict.get].
  - by intros _ ?%elem_of_nil.
  - rewrite fmap_cons. intros [Hk Hd]%NoDup_cons [Heq|Hin]%elem_of_cons.
    + injection Heq as -> ->. by rewrite decide_True.
    + rewrite decide_False; [by apply IH |].
      intros ->. apply Hk. apply list_elem_of_fmap. by exists (key, v).
Qed.

Lemma wf_setitem key (v : V) d :
  SortedDict.wf d → SortedDict.wf (SortedDict.setitem key v d).
Proof.
  unfold SortedDict.wf. rewrite keys_setitem. case_decide as Hin; [done |].
  intros Hd. apply NoDup_app. split_and!; [done | | apply NoDup_singleton].
  intros x Hx ->%list_elem_of_singleton. done.
Qed.

Lemma keys_foldl_setitem d l :
  SortedDict.keys (foldl (fun d kv => SortedDict.setitem kv.1 kv.2 d) d l)
  = SortedDict.keys d
    ++ filter (fun n => n ∉ SortedDict.keys d) (first_occurrences l.*1).
Proof.
  revert d. induction l as [|[k v] l IH]; intros d; simpl.
  - by rewrite app_nil_r.
  - rewrite IH, keys_setitem. case_decide as Hin.
    + rewrite filter_cons_False by (by intros []).
      f_equal. rewrite list_filter_filter. apply list_filter_iff.
      intros n. split; [| by intros [? ?]]. intros Hn. split; [done |]. by intros ->.
    + rewrite filter_cons_True by done.
      rewrite <- app_assoc. simpl. do 2 f_equal.
      rewrite list_filter_filter. apply list_filter_iff.
      intros n. rewrite elem_of_app, list_elem_of_singleton. tauto.
Qed.

Lemma keys_of_list l :
  SortedDict.keys (SortedDict.of_list l) = first_occurrences l.*1.
Proof.
  unfold SortedDict.of_list. rewrite keys_foldl_setitem. simpl.
  apply filter_all. by intros n _ ?%elem_of_nil.
Qed.
End SortedDict_facts.

Lemma elem_of_first_occurrences (x : string) l :
  x ∈ first_occurrences l ↔ x ∈ l.
Proof.
  induction l as [|y l IH]; simpl; [done |].
  rewrite !elem_of_cons, list_elem_of_filter, IH.
  destruct (decide (x = y)); naive_solver.
Qed.

Lemma first_occurrences_app l1 l2 :
  first_occurrences (l1 ++ l2)
  = first_occurrences l1 ++ filter (fun n => n ∉ l1) (first_occurrences l2).
Proof.
  induction l1 as [|x l1 IH]; simpl.
  - symmetry. apply filter_all. by intros n _ ?%elem_of_nil.
  - f_equal. rewrite IH, filter_app. f_equal.
    rewrite list_filter_filter. apply list_filter_iff.
    intros n. rewrite elem_of_cons. naive_solver.
Qed.

Lemma first_occurrences_NoDup l : NoDup l → first_occurrences l = l.
Proof.
  induction 1 as [|x l Hx _ IH]; simpl; [done |].
  rewrite IH. f_equal. apply filter_all. by intros y Hy ->.
Qed.

(** ** The stable sort on creation counters *)

Lemma insert_by_counter_perm x l : insert_by_counter x l ≡ₚ x :: l.
Proof.
  induction l as [|y l IH]; cbn [insert_by_counter]; [done |].
  case_decide; [done |]. rewrite IH. apply Permutation_swap.
Qed.

Lemma sort_by_counter_perm l : sort_by_counter l ≡ₚ l.
Proof.
  induction l as [|x l IH]; [done |].
  change (sort_by_counter (x :: l))
    with (insert_by_counter x (sort_by_counter l)).
  rewrite insert_by_counter_perm. by f_equiv.
Qed.

Lemma insert_by_counter_sorted x l :
  StronglySorted counter_le l → StronglySorted counter_le (insert_by_counter x l).
Proof.
  induction 1 as [|y l Hl IH Hy]; cbn [insert_by_counter].
  - repeat constructor.
  - case_decide as Hle.
    + constructor; [by constructor |].
      constructor; [done |].
      eapply Forall_impl; [exact Hy |].
      unfold counter_le in *. intros z ?. lia.
    + constructor; [done |].
      rewrite insert_by_counter_perm. constructor; [| done].
      unfold counter_le. lia.
Qed.

Lemma sort_by_counter_sorted l : StronglySorted counter_le (sort_by_counter l).
Proof.
  induction l as [|x l IH]; [constructor |].
  by apply insert_by_counter_sorted.
Qed.

(** Stability: fields with the same counter keep their relative order. *)
Lemma insert_by_counter_stable c x l :
  filter (has_counter c) (insert_by_counter x l)
  = filter (has_counter c) (x :: l).
Proof.
  induction l as [|y l IH]; cbn [insert_by_counter]; [done |].
  case_decide as Hle; [done |].
  rewrite (filter_cons _ y), IH, !(filter_cons _ x), (filter_cons _ y).
  unfold has_counter in *.
  repeat case_decide; try done; lia.
Qed.

Lemma sort_by_counter_stable c l :
  filter (has_counter c) (sort_by_counter l) = filter (has_counter c) l.
Proof.
  induction l as [|x l IH]; [done |].
  change (sort_by_counter (x :: l))
    with (insert_by_counter x (sort_by_counter l)).
  by rewrite insert_by_counter_stable, !filter_cons, IH.
Qed.

(** ** The declaration collector *)

Lemma merge_bases_eq (bases : list base_class) own :
  foldl (fun composite_fields base =>
           match base_composite_fields base with
           | Some base_fields => SortedDict.items base_fields ++ composite_fields
           | None => composite_fields
           end)
        own (reverse bases)
  = inherited_items bases ++ own.
Proof.
  unfold inherited_items.
  induction bases as [|base bases IH]; [done |].
  rewrite reverse_cons, foldl_app, IH. cbn.
  destruct (base_composite_fields base); cbn; [| done].
  by rewrite <- app_assoc.
Qed.

Lemma declared_fields_names_NoDup attrs :
  NoDup attrs.*1 → NoDup (declared_fields attrs).*1.
Proof.
  unfold declared_fields.
  induction attrs as [|[n v] attrs IH]; [done |].
  rewrite fmap_cons. intros [Hn Hattrs]%NoDup_cons. cbn.
  destruct v as [field|?]; cbn; [| by apply IH].
  apply NoDup_cons. split; [| by apply IH].
  intros [[n' f'] [-> Hin]]%list_elem_of_fmap. apply Hn.
  apply list_elem_of_omap in Hin as [[n'' v''] [Hin Has]].
  apply list_elem_of_fmap. exists (n'', v''). split; [| done].
  unfold as_composite in Has. cbn in Has. destruct v''; by inversion Has.
Qed.

Lemma collected_keys bases attrs :
  SortedDict.keys (get_declared_composite_fields bases attrs).1
  = first_occurrences
      ((inherited_items bases).*1 ++ (sort_by_counter (declared_fields attrs)).*1).
Proof.
  unfold get_declared_composite_fields. cbn [fst].
  by rewrite merge_bases_eq, keys_of_list, fmap_app.
Qed.

(** The reading of "the fields a class declares appear in their declaration
    order": restricted to the names the class body declares, the key order
    of the collected mapping is the class's sorted declaration order. *)
Definition declared_in_order (bases : list base_class)
    (attrs : list (string * attr_value)) : Prop :=
  let own := (sort_by_counter (declared_fields attrs)).*1 in
  filter (fun n => n ∈ own)
         (SortedDict.keys (get_declared_composite_fields bases attrs).1)
  = own.

Module C1_example.
Definition field (counter : nat) : CompositeField.t :=
  CompositeField.mk counter None None None.

(** A base with the fields [a], [b] and a subclass whose body declares
    [b], a plain attribute, [c], and then [a]. *)
Definition Base : base_class :=
  mkBase (Some [("a", field 1); ("b", field 2)]).

Definition attrs : list (string * attr_value) :=
  [("b", AComposite (field 5)); ("title", AOther "CharField");
   ("c", AComposite (field 6)); ("a", AComposite (field 7))].
End C1_example.

(** C1, counterexample: a subclass that declares again a name of its base.
    The subclass declares [b], [c], [a] in that order; the collected mapping
    lists [a], [b], [c], so the fields declared within that one class do not
    appear in their declaration order. *)
Lemma C1_redeclared_name_keeps_ancestor_position :
  NoDup C1_example.attrs.*1
  ∧ (sort_by_counter (declared_fields C1_example.attrs)).*1 = ["b"; "c"; "a"]
  ∧ SortedDict.keys
      (get_declared_composite_fields [C1_example.Base] C1_example.attrs).1
    = ["a"; "b"; "c"]
  ∧ ¬ declared_in_order [C1_example.Base] C1_example.attrs.
Proof.
  split_and!.
  - apply (bool_decide_unpack _). by vm_compute.
  - reflexivity.
  - reflexivity.
  - unfold declared_in_order. vm_compute. discriminate.
Qed.

(** C1 (amended): for every list of bases and every class namespace, the
    key order of the collected mapping is the names of the ancestors' fields
    (first base first, each name once) followed by the names the class adds,
    and the added names are in the class's declaration order: the order of
    the stable sort on creation counters, which is sorted, a permutation of
    the declared fields, and keeps fields of equal counter in namespace
    order.  A name the class declares again keeps its ancestor's position. *)
Theorem C1_ancestors_then_added_in_declaration_order
    (bases : list base_class) (attrs : list (string * attr_value)) :
  NoDup attrs.*1 →
  let own := sort_by_counter (declared_fields attrs) in
  let inherited := (inherited_items bases).*1 in
  SortedDict.keys (get_declared_composite_fields bases attrs).1
  = first_occurrences inherited ++ filter (fun n => n ∉ inherited) own.*1
  ∧ own ≡ₚ declared_fields attrs
  ∧ StronglySorted counter_le own
  ∧ ∀ c, filter (has_counter c) own = filter (has_counter c) (declared_fields attrs).
Proof.
  intros Hattrs own inherited. split_and!.
  - rewrite collected_keys, first_occurrences_app. f_equal. f_equal.
    apply first_occurrences_NoDup. subst own.
    rewrite sort_by_counter_perm. by apply declared_fields_names_NoDup.
  - apply sort_by_counter_perm.
  - apply sort_by_counter_sorted.
  - intros c. apply sort_by_counter_stable.
Qed.

Lemma C1_ancestors_then_added_witness :
  NoDup C1_example.attrs.*1
  ∧ SortedDict.keys
      (get_declared_composite_fields [C1_example.Base] C1_example.attrs).1
    = ["a"; "b"] ++ ["c"].
Proof.
  assert (Hattrs : NoDup C1_example.attrs.*1).
  { apply (bool_decide_unpack _). by vm_compute. }
  split; [exact Hattrs |].
  destruct (C1_ancestors_then_added_in_declaration_order
              [C1_example.Base] C1_example.attrs Hattrs) as [Hkeys _].
  rewrite Hkeys. reflexivity.
Defined.

(** ** Instantiation of the composites *)

Definition declares_get_form (entry : string * CompositeField.t) : Prop :=
  is_Some (CompositeField.get_form entry.2).

Definition declares_get_formset (entry : string * CompositeField.t) : Prop :=
  is_Some (CompositeField.get_formset entry.2).

Local Abbreviation init_body :=
  (fun (self : Form) (entry : string * CompositeField.t) =>
     let '(name, field) := entry in
     let self :=
       match CompositeField.get_form field with
       | Some get_form =>
           let form := get_form (host self) name in
           set_forms (SortedDict.setitem name form (forms self))
                     (log_event (EvGetForm name) self)
       | None => self
       end in
     match CompositeField.get_formset field with
     | Some get_formset =>
         let formset := get_formset (host self) name in
         set_formsets (SortedDict.setitem name formset (formsets self))
                      (log_event (EvGetFormset name) self)
     | None => self
     end).

Lemma init_body_forms self name field :
  forms (init_body self (name, field))
  = match CompositeField.get_form field with
    | Some get_form =>
        SortedDict.setitem name (get_form (host self) name) (forms self)
    | None => forms self
    end.
Proof.
  cbn. by destruct (CompositeField.get_form field),
                   (CompositeField.get_formset field).
Qed.

Lemma init_body_host self name field :
  host (init_body self (name, field)) = host self.
Proof.
  cbn. by destruct (CompositeField.get_form field),
                   (CompositeField.get_formset field).
Qed.

Lemma init_body_formsets self name field :
  formsets (init_body self (name, field))
  = match CompositeField.get_formset field with
    | Some get_formset =>
        SortedDict.setitem name (get_formset (host self) name) (formsets self)
    | None => formsets self
    end.
Proof.
  cbn. by destruct (CompositeField.get_form field),
                   (CompositeField.get_formset field).
Qed.

Lemma init_body_composite_fields self name field :
  composite_fields (init_body self (name, field)) = composite_fields self.
Proof.
  cbn. by destruct (CompositeField.get_form field),
                   (CompositeField.get_formset field).
Qed.

Lemma init_loop_host l self : host (foldl init_body self l) = host self.
Proof.
  revert self. induction l as [|[name field] l IH]; intros self; [done |].
  cbn [foldl]. by rewrite IH, init_body_host.
Qed.

Lemma init_loop_composite_fields l self :
  composite_fields (foldl init_body self l) = composite_fields self.
Proof.
  revert self. induction l as [|[name field] l IH]; intros self; [done |].
  cbn [foldl]. by rewrite IH, init_body_composite_fields.
Qed.

Lemma init_loop_forms_keys l self :
  NoDup l.*1 →
  (∀ n, n ∈ l.*1 → n ∉ SortedDict.keys (forms self)) →
  SortedDict.keys (forms (foldl init_body self l))
  = SortedDict.keys (forms self) ++ (filter declares_get_form l).*1.
Proof.
  revert self. induction l as [|[name field] l IH]; intros self Hnd Hfresh.
  { by rewrite app_nil_r. }
  rewrite fmap_cons in Hnd, Hfresh. apply NoDup_cons in Hnd as [Hname Hnd].
  cbn [foldl]. rewrite IH; [| done |].
  - rewrite init_body_forms.
    destruct (CompositeField.get_form field) as [g|] eqn:Hg.
    + rewrite keys_setitem, decide_False by (apply Hfresh; by left).
      rewrite filter_cons_True
        by (unfold declares_get_form; cbn [snd]; by rewrite Hg).
      by rewrite fmap_cons, <- app_assoc.
    + rewrite filter_cons_False; [done |].
      unfold declares_get_form. cbn [snd]. rewrite Hg. by intros [? ?].
  - intros n Hn. rewrite init_body_forms.
    destruct (CompositeField.get_form field) as [g|].
    + rewrite keys_setitem, decide_False by (apply Hfresh; by left).
      rewrite elem_of_app, list_elem_of_singleton.
      intros [Hold|Heq]; [eapply Hfresh; [by right | done] |].
      subst n. done.
    + apply Hfresh. by right.
Qed.

Lemma init_loop_formsets_keys l self :
  NoDup l.*1 →
  (∀ n, n ∈ l.*1 → n ∉ SortedDict.keys (formsets self)) →
  SortedDict.keys (formsets (foldl init_body self l))
  = SortedDict.keys (formsets self) ++ (filter declares_get_formset l).*1.
Proof.
  revert self. induction l as [|[name field] l IH]; intros self Hnd Hfresh.
  { by rewrite app_nil_r. }
  rewrite fmap_cons in Hnd, Hfresh. apply NoDup_cons in Hnd as [Hname Hnd].
  cbn [foldl]. rewrite IH; [| done |].
  - rewrite init_body_formsets.
    destruct (CompositeField.get_formset field) as [g|] eqn:Hg.
    + rewrite keys_setitem, decide_False by (apply Hfresh; by left).
      rewrite filter_cons_True
        by (unfold declares_get_formset; cbn [snd]; by rewrite Hg).
      by rewrite fmap_cons, <- app_assoc.
    + rewrite filter_cons_False; [done |].
      unfold declares_get_formset. cbn [snd]. rewrite Hg. by intros [? ?].
  - intros n Hn. rewrite init_body_formsets.
    destruct (CompositeField.get_formset field) as [g|].
    + rewrite keys_setitem, decide_False by (apply Hfresh; by left).
      rewrite elem_of_app, list_elem_of_singleton.
      intros [Hold|Heq]; [eapply Hfresh; [by right | done] |].
      subst n. done.
    + apply Hfresh. by right.
Qed.

Lemma init_forms_keys cls h :
  SortedDict.wf cls →
  SortedDict.keys (forms (CompositeFormMixin.__init__ cls h))
  = (filter declares_get_form cls).*1.
Proof.
  intros Hwf. unfold CompositeFormMixin.__init__,
    CompositeFormMixin._init_composite_fields.
  rewrite init_loop_forms_keys; [done | done |].
  intros n _ ?%elem_of_nil. done.
Qed.

Lemma init_formsets_keys cls h :
  SortedDict.wf cls →
  SortedDict.keys (formsets (CompositeFormMixin.__init__ cls h))
  = (filter declares_get_formset cls).*1.
Proof.
  intros Hwf. unfold CompositeFormMixin.__init__,
    CompositeFormMixin._init_composite_fields.
  rewrite init_loop_formsets_keys; [done | done |].
  intros n _ ?%elem_of_nil. done.
Qed.

Lemma elem_of_filter_fst {V : Type} (P : string * V → Prop)
    `{∀ x, Decision (P x)} (d : SortedDict.t V) name (v : V) :
  SortedDict.wf d → (name, v) ∈ d →
  name ∈ (filter P d).*1 ↔ P (name, v).
Proof.
  intros Hwf Hin. rewrite list_elem_of_fmap. split.
  - intros [[n' v'] [-> [HP Hin']%list_elem_of_filter]].
    cbn [fst] in *. apply (elem_of_get _ _ _ Hwf) in Hin, Hin'.
    rewrite Hin in Hin'. by injection Hin' as ->.
  - intros HP. exists (name, v). split; [done |].
    by apply list_elem_of_filter.
Qed.

Lemma wf_filter {V : Type} (P : string * V → Prop) `{∀ x, Decision (P x)}
    (d : SortedDict.t V) :
  SortedDict.wf d → NoDup (filter P d).*1.
Proof.
  unfold SortedDict.wf, SortedDict.keys. intros Hwf.
  eapply sublist_NoDup; [exact Hwf |].
  apply fmap_sublist, sublist_filter.
Qed.

(** C7: for every class mapping of composite fields, every host state left
    by the framework's initialiser and every declared field, the new
    instance has an entry under the field's name in [forms] exactly when the
    field declares [get_form], and in [formsets] exactly when it declares
    [get_formset]; a field with neither capability has no entry in either
    mapping.  Each mapping holds one entry per such field, in declaration
    order. *)
Theorem C7_composites_instantiated_per_capability
    (cls : SortedDict.t CompositeField.t) (h : HostForm)
    (name : string) (field : CompositeField.t) :
  SortedDict.wf cls →
  (name, field) ∈ SortedDict.items cls →
  let self := CompositeFormMixin.__init__ cls h in
  (name ∈ SortedDict.keys (forms self)
     ↔ is_Some (CompositeField.get_form field))
  ∧ (name ∈ SortedDict.keys (formsets self)
     ↔ is_Some (CompositeField.get_formset field))
  ∧ (CompositeField.get_form field = None →
     CompositeField.get_formset field = None →
     (name ∉ SortedDict.keys (forms self))
     ∧ (name ∉ SortedDict.keys (formsets self)))
  ∧ SortedDict.keys (forms self) = (filter declares_get_form cls).*1
  ∧ SortedDict.keys (formsets self) = (filter declares_get_formset cls).*1
  ∧ SortedDict.wf (forms self) ∧ SortedDict.wf (formsets self).
Proof.
  intros Hwf Hin self.
  assert (Hforms : name ∈ SortedDict.keys (forms self)
                   ↔ is_Some (CompositeField.get_form field)).
  { subst self. rewrite init_forms_keys by done.
    by rewrite (elem_of_filter_fst declares_get_form cls name field). }
  assert (Hformsets : name ∈ SortedDict.keys (formsets self)
                      ↔ is_Some (CompositeField.get_formset field)).
  { subst self. rewrite init_formsets_keys by done.
    by rewrite (elem_of_filter_fst declares_get_formset cls name field). }
  split_and!; try done.
  - intros Hnf Hnfs. rewrite Hforms, Hformsets, Hnf, Hnfs.
    split; by intros [? ?].
  - by apply init_forms_keys.
  - by apply init_formsets_keys.
  - unfold SortedDict.wf. subst self. rewrite init_forms_keys by done.
    by apply wf_filter.
  - unfold SortedDict.wf. subst self. rewrite init_formsets_keys by done.
    by apply wf_filter.
Qed.

(** ** Validation *)

(** The entries the composites of one mapping contribute to the parent's
    error collection: one per invalid composite, in key order. *)
Definition is_invalid {k : kind} (entry : string * Composite k) : Prop :=
  c_is_valid entry.2 = false.

#[global] Instance is_invalid_dec {k} (entry : string * Composite k) :
  Decision (is_invalid entry).
Proof. unfold is_invalid. apply _. Defined.

Definition error_entries {k : kind} (wrap : errors_of k → errval)
    (d : SortedDict.t (Composite k)) : list (string * errval) :=
  (fun entry => (entry.1, wrap (c_errors entry.2)))
    <$> filter is_invalid (SortedDict.items d).

Definition add_entries (e : gmap string errval) (l : list (string * errval))
    : gmap string errval :=
  foldl (fun e entry => <[entry.1 := entry.2]> e) e l.

Local Abbreviation clean_body k wrap :=
  (fun (self : Form) (entry : string * Composite k) =>
     let '(key, composite) := entry in
     let self := log_event (EvFullClean k key) self in
     if negb (c_is_valid composite)
     then set_error key (wrap (c_errors composite)) self
     else Some self).

Lemma clean_loop k (wrap : errors_of k → errval) l self e0 :
  _errors (host self) = Some e0 →
  foldlM (clean_body k wrap) self l
  = Some (mkForm (set_errors (Some (add_entries e0 (error_entries wrap l)))
                             (host self))
                 (composite_fields self) (forms self) (formsets self)
                 (log self ++ (EvFullClean k <$> l.*1))).
Proof.
  revert self e0. induction l as [|[key c] l IH]; intros self e0 He0.
  - destruct self as [[b e i a] cf fs fss lg]. cbn in *. subst e.
    by rewrite app_nil_r.
  - cbn [foldlM]. unfold error_entries, SortedDict.items.
    destruct (c_is_valid c) eqn:Hvalid; cbn [negb].
    + rewrite filter_cons_False
        by (unfold is_invalid; cbn [snd]; by rewrite Hvalid).
      cbn [mbind option_bind]. rewrite (IH _ e0) by done. cbn.
      by rewrite <- app_assoc.
    + rewrite filter_cons_True by done.
      unfold set_error. cbn [log_event host]. rewrite He0. cbn [mbind option_bind].
      rewrite (IH _ (<[key := wrap (c_errors c)]> e0)) by done. cbn.
      by rewrite <- app_assoc.
Qed.

Lemma full_clean_Some super_full_clean self e0 :
  _errors (super_full_clean (host self)) = Some e0 →
  CompositeFormMixin.full_clean super_full_clean self
  = Some (mkForm
            (set_errors
               (Some (add_entries (add_entries e0 (error_entries (k:=KForm) EDict (forms self)))
                                  (error_entries (k:=KFormset) EList (formsets self))))
               (super_full_clean (host self)))
            (composite_fields self) (forms self) (formsets self)
            (log self ++ [EvSuperFullClean]
             ++ (EvFullClean KForm <$> SortedDict.keys (forms self))
             ++ (EvFullClean KFormset <$> SortedDict.keys (formsets self)))).
Proof.
  intros He0. unfold CompositeFormMixin.full_clean.
  cbn [log_event set_host forms formsets].
  rewrite (clean_loop KForm EDict _ _ e0) by done.
  cbn [mbind option_bind formsets].
  rewrite (clean_loop KFormset EList _ _
             (add_entries e0 (error_entries (k:=KForm) EDict (forms self)))) by done.
  cbn. by rewrite <- !app_assoc.
Qed.

Lemma get_None_not_elem {V : Type} key (d : SortedDict.t V) :
  key ∉ SortedDict.keys d → SortedDict.get key d = None.
Proof.
  intros Hnot. destruct (SortedDict.get key d) eqn:Hget; [| done].
  exfalso. apply Hnot, get_is_Some. by rewrite Hget.
Qed.

Lemma lookup_add_entries e l key :
  NoDup l.*1 →
  add_entries e l !! key
  = match SortedDict.get key l with
    | Some v => Some v
    | None => e !! key
    end.
Proof.
  unfold add_entries.
  revert e. induction l as [|[k v] l IH]; intros e Hnd; [done |].
  rewrite fmap_cons in Hnd. apply NoDup_cons in Hnd as [Hk Hnd].
  cbn [foldl SortedDict.get fst snd]. rewrite IH by done.
  destruct (decide (k = key)) as [->|Hne].
  - rewrite get_None_not_elem by done. apply lookup_insert_eq.
  - destruct (SortedDict.get key l); [done |]. by apply lookup_insert_ne.
Qed.

Lemma error_entries_keys_sublist {k} (wrap : errors_of k → errval) d :
  (error_entries wrap d).*1 `sublist_of` SortedDict.keys d.
Proof.
  unfold error_entries, SortedDict.keys, SortedDict.items.
  rewrite <- list_fmap_compose.
  replace (fst ∘ (fun entry : string * Composite k =>
                    (entry.1, wrap (c_errors entry.2))))
    with (fst : string * Composite k → string) by done.
  apply fmap_sublist, sublist_filter.
Qed.

Lemma wf_error_entries {k} (wrap : errors_of k → errval) d :
  SortedDict.wf d → NoDup (error_entries wrap d).*1.
Proof.
  intros Hwf. eapply sublist_NoDup; [exact Hwf |].
  apply error_entries_keys_sublist.
Qed.

Lemma get_error_entries {k} (wrap : errors_of k → errval) d key :
  SortedDict.wf d →
  SortedDict.get key (error_entries wrap d)
  = match SortedDict.get key d with
    | Some c => if c_is_valid c then None else Some (wrap (c_errors c))
    | None => None
    end.
Proof.
  unfold SortedDict.wf, SortedDict.keys.
  induction d as [|[k0 c0] d IH]; [done |].
  rewrite fmap_cons. intros [Hk0 Hd]%NoDup_cons.
  unfold error_entries, SortedDict.items. cbn [SortedDict.get].
  destruct (c_is_valid c0) eqn:Hvalid.
  - rewrite filter_cons_False
      by (unfold is_invalid; cbn [snd]; by rewrite Hvalid).
    destruct (decide (k0 = key)) as [->|Hne]; [| by apply IH].
    rewrite Hvalid.
    apply get_None_not_elem. intros Hin. apply Hk0.
    eapply elem_of_sublist; [exact Hin |]. apply error_entries_keys_sublist.
  - rewrite filter_cons_True by done. rewrite fmap_cons.
    cbn [SortedDict.get fst snd].
    destruct (decide (k0 = key)) as [->|Hne]; [by rewrite Hvalid | by apply IH].
Qed.

(** What the composites registered under [key] report, if invalid. *)
Definition form_error (self : Form) (key : string) : option errval :=
  match SortedDict.get key (forms self) with
  | Some form => if c_is_valid form then None else Some (EDict (c_errors form))
  | None => None
  end.

Definition formset_error (self : Form) (key : string) : option errval :=
  match SortedDict.get key (formsets self) with
  | Some formset =>
      if c_is_valid formset then None else Some (EList (c_errors formset))
  | None => None
  end.

(** The error collection of a parent after [full_clean], key by key: the
    invalid sub-formset of that name wins over the invalid sub-form of that
    name, which wins over what the framework's own validation left. *)
Lemma full_clean_errors super_full_clean self e0 :
  SortedDict.wf (forms self) → SortedDict.wf (formsets self) →
  _errors (super_full_clean (host self)) = Some e0 →
  ∃ self' e,
    CompositeFormMixin.full_clean super_full_clean self = Some self'
    ∧ _errors (host self') = Some e
    ∧ is_bound (host self') = is_bound (super_full_clean (host self))
    ∧ forms self' = forms self ∧ formsets self' = formsets self
    ∧ log self' = log self ++ [EvSuperFullClean]
                  ++ (EvFullClean KForm <$> SortedDict.keys (forms self))
                  ++ (EvFullClean KFormset <$> SortedDict.keys (formsets self))
    ∧ ∀ key, e !! key
             = match formset_error self key with
               | Some v => Some v
               | None => match form_error self key with
                         | Some v => Some v
                         | None => e0 !! key
                         end
               end.
Proof.
  intros Hforms Hformsets He0.
  eexists _, _. split; [by apply full_clean_Some |].
  cbn. split_and!; try done.
  intros key. unfold formset_error, form_error.
  rewrite !lookup_add_entries by (by apply wf_error_entries).
  by rewrite !get_error_entries by done.
Qed.

Lemma is_valid_after_clean super_full_clean self e key :
  _errors (host self) = Some e → is_Some (e !! key) →
  CompositeFormMixin.is_valid super_full_clean self = Some (false, self).
Proof.
  intros He [v Hv].
  unfold CompositeFormMixin.is_valid, BaseForm.is_valid, BaseForm.errors.
  destruct (is_bound (host self)); [| done].
  rewrite He. cbn. rewrite bool_decide_eq_false_2; [done |].
  intros ->%map_size_empty_iff. by rewrite lookup_empty in Hv.
Qed.

(** A host that behaves as the framework does: validation installs the
    form's own errors (none when the form is unbound); a save without commit
    attaches the deferred many-to-many save to the instance. *)
Module Django.
Definition full_clean (own_errors : gmap string errval) (h : HostForm)
    : HostForm :=
  set_errors (Some (if is_bound h then own_errors else ∅)) h.

Definition save (commit : bool) (h : HostForm) : nat * HostForm :=
  (instance h,
   if commit then h
   else set_attrs (<["save_m2m" := cb_native "parent.save_m2m"]> (attrs h)) h).

(** A bound form with model instance 7, not validated yet. *)
Definition bound_form : HostForm := mkHostForm true None 7 ∅.
End Django.

Module C5_example.
Definition required : errval := EList [EStr "This field is required."].

Definition address_form : Composite KForm :=
  mkComposite (k:=KForm) false [("street", required)] None.

Definition address_formset : Composite KFormset :=
  mkComposite (k:=KFormset) false [EDict [("city", required)]] None.

(** One field that declares both [get_form] and [get_formset]. *)
Definition address : CompositeField.t :=
  CompositeField.mk 0 (Some (fun _ _ => address_form))
                      (Some (fun _ _ => address_formset)) None.

Definition parent : Form :=
  CompositeFormMixin.__init__ [("address", address)] Django.bound_form.
End C5_example.

(** C5, counterexample: a field with both factories puts a sub-form and a
    sub-formset under the same name.  When both are invalid the entry under
    that name is the formset's list: the invalid sub-form's errors are not
    in the collection and the entry is not dict-shaped. *)
Lemma C5_formset_entry_replaces_form_entry :
  SortedDict.get "address" (forms C5_example.parent)
  = Some C5_example.address_form
  ∧ c_is_valid C5_example.address_form = false
  ∧ ∃ self' e,
      CompositeFormMixin.full_clean (Django.full_clean ∅) C5_example.parent
      = Some self'
      ∧ _errors (host self') = Some e
      ∧ e !! "address" = Some (EList (c_errors C5_example.address_formset))
      ∧ e !! "address" ≠ Some (EDict (c_errors C5_example.address_form))
      ∧ (is_dict_shaped <$> e !! "address") = Some false.
Proof.
  split; [reflexivity |]. split; [reflexivity |].
  eexists _, _. split; [reflexivity |]. split; [reflexivity |].
  split_and!; [by vm_compute | by vm_compute | by vm_compute].
Qed.

(** C5 (amended): for every parent whose host validation leaves an error
    collection, [full_clean] does not raise and afterwards: an invalid
    sub-formset has its errors, list-shaped, under its field name; an invalid
    sub-form has its errors, dict-shaped, under its field name unless an
    invalid sub-formset is registered under the same name (whose entry then
    stands there); and [is_valid()] is false as soon as the collection has
    any key. *)
Theorem C5_invalid_composites_reported_under_their_name
    (super_full_clean : HostForm → HostForm) (self : Form)
    (e0 : gmap string errval) :
  SortedDict.wf (forms self) → SortedDict.wf (formsets self) →
  _errors (super_full_clean (host self)) = Some e0 →
  ∃ self' e,
    CompositeFormMixin.full_clean super_full_clean self = Some self'
    ∧ _errors (host self') = Some e
    ∧ (∀ key formset,
         SortedDict.get key (formsets self) = Some formset →
         c_is_valid formset = false →
         e !! key = Some (EList (c_errors formset))
         ∧ is_list_shaped (EList (c_errors formset)) = true)
    ∧ (∀ key form,
         SortedDict.get key (forms self) = Some form →
         c_is_valid form = false →
         (∀ formset, SortedDict.get key (formsets self) = Some formset →
                     c_is_valid formset = true) →
         e !! key = Some (EDict (c_errors form))
         ∧ is_dict_shaped (EDict (c_errors form)) = true)
    ∧ (∀ key, is_Some (e !! key) →
         CompositeFormMixin.is_valid super_full_clean self'
         = Some (false, self')).
Proof.
  intros Hforms Hformsets He0.
  destruct (full_clean_errors super_full_clean self e0 Hforms Hformsets He0)
    as (self' & e & Hclean & He & _ & _ & _ & _ & Hlookup).
  exists self', e. split_and!; [done | done | | |].
  - intros key formset Hget Hinvalid. split; [| done].
    rewrite Hlookup. unfold formset_error. by rewrite Hget, Hinvalid.
  - intros key form Hget Hinvalid Hformset. split; [| done].
    rewrite Hlookup. unfold formset_error, form_error.
    rewrite Hget, Hinvalid.
    destruct (SortedDict.get key (formsets self)) as [formset|] eqn:Hfs;
      [| done].
    by rewrite (Hformset formset eq_refl).
  - intros key Hkey. by eapply is_valid_after_clean.
Qed.

Lemma C5_invalid_composites_reported_witness :
  SortedDict.wf (forms C5_example.parent)
  ∧ SortedDict.wf (formsets C5_example.parent)
  ∧ _errors (Django.full_clean ∅ (host C5_example.parent)) = Some ∅
  ∧ ∃ self' (e : gmap string errval),
      CompositeFormMixin.full_clean (Django.full_clean ∅) C5_example.parent
      = Some self'
      ∧ e !! "address" = Some (EList (c_errors C5_example.address_formset))
      ∧ CompositeFormMixin.is_valid (Django.full_clean ∅) self'
        = Some (false, self').
Proof.
  assert (Hforms : SortedDict.wf (forms C5_example.parent)).
  { apply (bool_decide_unpack _). by vm_compute. }
  assert (Hformsets : SortedDict.wf (formsets C5_example.parent)).
  { apply (bool_decide_unpack _). by vm_compute. }
  assert (He0 : _errors (Django.full_clean ∅ (host C5_example.parent)) = Some ∅).
  { reflexivity. }
  split_and!; [done | done | done |].
  destruct (C5_invalid_composites_reported_under_their_name
              (Django.full_clean ∅) C5_example.parent ∅ Hforms Hformsets He0)
    as (self' & e & Hclean & He & Hfs & _ & Hvalid).
  exists self', e.
  destruct (Hfs "address" C5_example.address_formset eq_refl eq_refl)
    as [Hentry _].
  split_and!; [done | done |].
  apply (Hvalid "address"). by rewrite Hentry.
Defined.

Module C6_example.
Definition invalid_choice : errval := EList [EStr "Select a valid choice."].

Definition owner_form : Composite KForm :=
  mkComposite (k:=KForm) true [] None.

Definition tags_form : Composite KForm :=
  mkComposite (k:=KForm) false [("label", invalid_choice)] None.

Definition tags_formset : Composite KFormset :=
  mkComposite (k:=KFormset) false [EDict [("tag", invalid_choice)]] None.

Definition owner : CompositeField.t :=
  CompositeField.mk 0 (Some (fun _ _ => owner_form)) None None.

(** A field with both factories. *)
Definition tags : CompositeField.t :=
  CompositeField.mk 1 (Some (fun _ _ => tags_form))
                      (Some (fun _ _ => tags_formset)) None.

Definition parent : Form :=
  CompositeFormMixin.__init__ [("owner", owner); ("tags", tags)]
                              Django.bound_form.

(** The scenario of two sub-forms, the first valid, the second invalid. *)
Definition A : Composite KForm := mkComposite (k:=KForm) true [] None.

Definition B : Composite KForm :=
  mkComposite (k:=KForm) false [("name", invalid_choice)] None.

Definition two_forms : Form :=
  CompositeFormMixin.__init__
    [("A", CompositeField.mk 0 (Some (fun _ _ => A)) None None);
     ("B", CompositeField.mk 1 (Some (fun _ _ => B)) None None)]
    Django.bound_form.
End C6_example.

(** C6, counterexample: the parent has two invalid composites, the sub-form
    and the sub-formset of the field [tags], and its error collection after
    one pass has a single entry, the formset's; the errors of the invalid
    sub-form are under no key, so the collection does not hold an entry for
    every invalid composite. *)
Lemma C6_one_entry_for_two_invalid_composites :
  SortedDict.get "tags" (forms C6_example.parent) = Some C6_example.tags_form
  ∧ SortedDict.get "tags" (formsets C6_example.parent)
    = Some C6_example.tags_formset
  ∧ c_is_valid C6_example.tags_form = false
  ∧ c_is_valid C6_example.tags_formset = false
  ∧ ∃ self' e,
      CompositeFormMixin.full_clean (Django.full_clean ∅) C6_example.parent
      = Some self'
      ∧ _errors (host self') = Some e
      ∧ e = {[ "tags" := EList (c_errors C6_example.tags_formset) ]}
      ∧ ∀ key, e !! key ≠ Some (EDict (c_errors C6_example.tags_form)).
Proof.
  split_and!; [reflexivity | reflexivity | reflexivity | reflexivity |].
  eexists _, _.
  split; [exact (full_clean_Some (Django.full_clean ∅) C6_example.parent ∅
                   eq_refl) |].
  split; [reflexivity |].
  assert (Heq : add_entries
                  (add_entries ∅ (error_entries (k:=KForm) EDict
                                    (forms C6_example.parent)))
                  (error_entries (k:=KFormset) EList
                     (formsets C6_example.parent))
                = {[ "tags" := EList (c_errors C6_example.tags_formset) ]}).
  { by vm_compute. }
  split; [exact Heq |].
  rewrite Heq. intros key.
  destruct (decide (key = "tags")) as [->|Hne].
  - rewrite lookup_singleton_eq. discriminate.
  - by rewrite lookup_singleton_ne.
Qed.

(** C6 (amended): [full_clean] does not short-circuit.  For every parent
    whose host validation leaves an error collection, one pass asks every
    sub-form and then every sub-formset to validate, in key order and
    whatever the earlier ones answered, and leaves under each key: the errors
    of the invalid sub-formset of that name if there is one, otherwise the
    errors of the invalid sub-form of that name if there is one, otherwise
    what the host's own validation left there (so valid composites add no
    entry).  In particular, with two sub-forms, the first valid and the
    second invalid, and no sub-formset, [is_valid()] is false and the
    collection is the host's own plus exactly one entry, under the second
    form's name, holding its errors. *)
Theorem C6_full_clean_reports_every_key_in_one_pass
    (super_full_clean : HostForm → HostForm) (self : Form)
    (e0 : gmap string errval) :
  SortedDict.wf (forms self) → SortedDict.wf (formsets self) →
  _errors (super_full_clean (host self)) = Some e0 →
  ∃ self' e,
    CompositeFormMixin.full_clean super_full_clean self = Some self'
    ∧ _errors (host self') = Some e
    ∧ log self' = log self ++ [EvSuperFullClean]
                  ++ (EvFullClean KForm <$> SortedDict.keys (forms self))
                  ++ (EvFullClean KFormset <$> SortedDict.keys (formsets self))
    ∧ (∀ key, e !! key
              = match formset_error self key with
                | Some v => Some v
                | None => match form_error self key with
                          | Some v => Some v
                          | None => e0 !! key
                          end
                end)
    ∧ (∀ nameA nameB formA formB,
         forms self = [(nameA, formA); (nameB, formB)] →
         formsets self = [] →
         c_is_valid formA = true → c_is_valid formB = false →
         e = <[nameB := EDict (c_errors formB)]> e0
         ∧ CompositeFormMixin.is_valid super_full_clean self'
           = Some (false, self')).
Proof.
  intros Hforms Hformsets He0.
  destruct (full_clean_errors super_full_clean self e0 Hforms Hformsets He0)
    as (self' & e & Hclean & He & _ & _ & _ & Hlog & Hlookup).
  exists self', e. split_and!; [done | done | done | done |].
  intros nameA nameB formA formB HAB Hnone HA HB.
  assert (Hne : nameA ≠ nameB).
  { unfold SortedDict.wf, SortedDict.keys in Hforms. rewrite HAB in Hforms.
    apply NoDup_cons in Hforms as [Hnot _]. intros ->. apply Hnot. by left. }
  assert (HeB : e !! nameB = Some (EDict (c_errors formB))).
  { rewrite Hlookup. unfold formset_error, form_error. rewrite Hnone, HAB.
    cbn [SortedDict.get]. rewrite decide_False by done.
    by rewrite decide_True, HB by done. }
  split; [| eapply is_valid_after_clean; [done | by rewrite HeB]].
  apply map_eq. intros key. rewrite Hlookup.
  unfold formset_error, form_error. rewrite Hnone, HAB. cbn [SortedDict.get].
  destruct (decide (nameA = key)) as [<-|HneA].
  - rewrite HA. by rewrite lookup_insert_ne.
  - destruct (decide (nameB = key)) as [<-|HneB].
    + by rewrite HB, lookup_insert_eq.
    + by rewrite lookup_insert_ne.
Qed.

Lemma C6_full_clean_reports_witness :
  SortedDict.wf (forms C6_example.two_forms)
  ∧ SortedDict.wf (formsets C6_example.two_forms)
  ∧ _errors (Django.full_clean ∅ (host C6_example.two_forms)) = Some ∅
  ∧ ∃ self' (e : gmap string errval),
      CompositeFormMixin.full_clean (Django.full_clean ∅) C6_example.two_forms
      = Some self'
      ∧ e = <["B" := EDict (c_errors C6_example.B)]> ∅
      ∧ CompositeFormMixin.is_valid (Django.full_clean ∅) self'
        = Some (false, self').
Proof.
  assert (Hforms : SortedDict.wf (forms C6_example.two_forms)).
  { apply (bool_decide_unpack _). by vm_compute. }
  assert (Hformsets : SortedDict.wf (formsets C6_example.two_forms)).
  { apply (bool_decide_unpack _). by vm_compute. }
  assert (He0 : _errors (Django.full_clean ∅ (host C6_example.two_forms))
                = Some ∅) by reflexivity.
  split_and!; [done | done | done |].
  destruct (C6_full_clean_reports_every_key_in_one_pass
              (Django.full_clean ∅) C6_example.two_forms ∅
              Hforms Hformsets He0)
    as (self' & e & Hclean & He & _ & _ & Hscenario).
  exists self', e.
  destruct (Hscenario "A" "B" C6_example.A C6_example.B
              eq_refl eq_refl eq_refl eq_refl) as [Heq Hvalid].
  by split_and!.
Defined.

(** ** Persistence *)

(** A form as the constructor and the methods of the mixins leave it: both
    mappings are well formed and every key of theirs is a declared field. *)
Definition wf_form (self : Form) : Prop :=
  SortedDict.wf (forms self) ∧ SortedDict.wf (formsets self)
  ∧ (∀ name, name ∈ SortedDict.keys (forms self) →
             is_Some (SortedDict.get name (composite_fields self)))
  ∧ (∀ name, name ∈ SortedDict.keys (formsets self) →
             is_Some (SortedDict.get name (composite_fields self))).









Lemma composite_fields_set_composites k d self :
  composite_fields (set_composites k d self) = composite_fields self.
Proof. by destruct k. Qed.








(** What [_extend_save_m2m] does to the host state, given the callables
    it found on the saved composites. *)
Definition extend_host (name : string) (deferred : list callback)
    (h : HostForm) : HostForm :=
  match deferred with
  | [] => h
  | _ :: _ =>
      set_attrs
        (<[name := cb_additional_saves deferred]>
           (<["save_m2m" :=
                cb_augmented_save_m2m
                  (default cb_lambda_None (attrs h !! "save_m2m"))
                  (cb_additional_saves deferred)]> (attrs h)))
        h
  end.




Lemma extend_save_m2m_eq {k} name (saved : list (Composite k)) self :
  CompositeModelFormMixin._extend_save_m2m name saved self
  = set_host (extend_host name (omap c_save_m2m saved) (host self)) self.
Proof.
  unfold CompositeModelFormMixin._extend_save_m2m, extend_host.
  destruct (omap c_save_m2m saved) as [|cb l]; [by destruct self |].
  unfold setattr, getattr. destruct self as [h cf fs fss lg]. cbn.
  by destruct (attrs h !! "save_m2m").
Qed.











Lemma init_wf_form cls h :
  SortedDict.wf cls → wf_form (CompositeFormMixin.__init__ cls h).
Proof.
  intros Hwf.
  assert (Hcf : composite_fields (CompositeFormMixin.__init__ cls h) = cls).
  { unfold CompositeFormMixin.__init__,
      CompositeFormMixin._init_composite_fields.
    by rewrite init_loop_composite_fields. }
  unfold wf_form. rewrite Hcf.
  unfold SortedDict.wf at 1 2.
  rewrite init_forms_keys, init_formsets_keys by done.
  split_and!.
  - by apply wf_filter.
  - by apply wf_filter.
  - intros name Hname. apply get_is_Some.
    eapply elem_of_sublist; [exact Hname |].
    apply fmap_sublist, sublist_filter.
  - intros name Hname. apply get_is_Some.
    eapply elem_of_sublist; [exact Hname |].
    apply fmap_sublist, sublist_filter.
Qed.


(** * Further properties of the code *)

Module Save_example.
(** A field's [save] that saves the composite and, without commit, leaves
    the composite's deferred save on it (as the framework's forms and
    formsets do). *)
Definition save_composite
    : ∀ k, HostForm → string → Composite k → bool → Composite k :=
  fun k _ name composite commit =>
    mkComposite (c_is_valid composite) (c_errors composite)
      (if commit then None
       else Some (cb_native (String.append name ".save_m2m"))).

Definition address : CompositeField.t :=
  CompositeField.mk 0 (Some (fun _ _ => mkComposite (k:=KForm) true [] None))
    None (Some save_composite).

(** A sub-form that is shown but never saved. *)
Definition notes : CompositeField.t :=
  CompositeField.mk 1 (Some (fun _ _ => mkComposite (k:=KForm) true [] None))
    None None.

Definition phones : CompositeField.t :=
  CompositeField.mk 2 None
    (Some (fun _ _ => mkComposite (k:=KFormset) true [] None))
    (Some save_composite).


Definition cls : SortedDict.t CompositeField.t :=
  [("address", address); ("notes", notes); ("phones", phones)].

Definition parent : Form := CompositeFormMixin.__init__ cls Django.bound_form.


End Save_example.























(** X7: A parent without composites behaves as the class without the mixins:
    when both mappings are empty, [full_clean], [is_valid] and [save] (for
    every commit flag) give the results, the state and the calls of the
    host's own methods. *)
Theorem without_composites_the_mixins_add_nothing
    (super_full_clean : HostForm → HostForm)
    (super_save : bool → HostForm → nat * HostForm)
    (commit : bool) (self : Form) :
  forms self = SortedDict.empty → formsets self = SortedDict.empty →
  CompositeFormMixin.full_clean super_full_clean self
  = BaseForm.base_full_clean super_full_clean self
  ∧ CompositeFormMixin.is_valid super_full_clean self
    = BaseForm.is_valid (BaseForm.base_full_clean super_full_clean) self
  ∧ CompositeModelFormMixin.save super_save commit self
    = ModelForm.base_save super_save commit self.
Proof.
  intros Hforms Hformsets.
  assert (Hclean : CompositeFormMixin.full_clean super_full_clean self
                   = BaseForm.base_full_clean super_full_clean self).
  { unfold CompositeFormMixin.full_clean, BaseForm.base_full_clean,
      log_event, set_host.
    cbn [forms formsets host composite_fields log]. rewrite Hforms.
    cbn [SortedDict.items SortedDict.empty foldlM mbind option_bind
         forms formsets host composite_fields log].
    by rewrite Hformsets. }
  split_and!; [done | |].
  - unfold CompositeFormMixin.is_valid, BaseForm.is_valid, BaseForm.errors.
    by rewrite Hclean.
  - unfold CompositeModelFormMixin.save, ModelForm.base_save,
      CompositeModelFormMixin.save_forms, CompositeModelFormMixin.save_formsets.
    destruct (super_save commit (host self)) as [saved_obj h].
    unfold log_event, set_host.
    cbn [forms formsets host composite_fields log]. rewrite Hforms.
    cbn [SortedDict.items SortedDict.empty foldlM mbind option_bind
         CompositeModelFormMixin._extend_save_m2m omap list_omap
         forms formsets host composite_fields log].
    by rewrite Hformsets.
Qed.

Lemma without_composites_witness :
  let self := CompositeFormMixin.__init__ SortedDict.empty Django.bound_form in
  forms self = SortedDict.empty ∧ formsets self = SortedDict.empty
  ∧ CompositeModelFormMixin.save Django.save false self
    = ModelForm.base_save Django.save false self.
Proof.
  split; [reflexivity |]. split; [reflexivity |].
  apply (without_composites_the_mixins_add_nothing
           (Django.full_clean ∅) Django.save false
           (CompositeFormMixin.__init__ SortedDict.empty Django.bound_form)
           eq_refl eq_refl).
Defined.

(** ** The constructor *)

Lemma init_loop_forms_get_other l self name :
  name ∉ l.*1 →
  SortedDict.get name (forms (foldl init_body self l))
  = SortedDict.get name (forms self).
Proof.
  revert self. induction l as [|[n field] l IH]; intros self Hname; [done |].
  rewrite fmap_cons in Hname. apply not_elem_of_cons in Hname as [Hne Hname].
  cbn [foldl]. rewrite IH by done. rewrite init_body_forms.
  destruct (CompositeField.get_form field); [| done].
  by rewrite get_setitem, decide_False.
Qed.

Lemma init_loop_formsets_get_other l self name :
  name ∉ l.*1 →
  SortedDict.get name (formsets (foldl init_body self l))
  = SortedDict.get name (formsets self).
Proof.
  revert self. induction l as [|[n field] l IH]; intros self Hname; [done |].
  rewrite fmap_cons in Hname. apply not_elem_of_cons in Hname as [Hne Hname].
  cbn [foldl]. rewrite IH by done. rewrite init_body_formsets.
  destruct (CompositeField.get_formset field); [| done].
  by rewrite get_setitem, decide_False.
Qed.

Lemma init_loop_forms_get l self name field :
  NoDup l.*1 → (name, field) ∈ l →
  SortedDict.get name (forms (foldl init_body self l))
  = match CompositeField.get_form field with
    | Some get_form => Some (get_form (host self) name)
    | None => SortedDict.get name (forms self)
    end.
Proof.
  revert self. induction l as [|[n f] l IH]; intros self Hnd Hin.
  { by apply elem_of_nil in Hin. }
  rewrite fmap_cons in Hnd. apply NoDup_cons in Hnd as [Hn Hnd].
  cbn [foldl]. apply elem_of_cons in Hin as [[= <- <-]|Hin].
  - rewrite init_loop_forms_get_other by done. rewrite init_body_forms.
    destruct (CompositeField.get_form field); [| done].
    by rewrite get_setitem, decide_True.
  - assert (n ≠ name).
    { intros ->. apply Hn. apply list_elem_of_fmap. by exists (name, field). }
    rewrite (IH _ Hnd Hin), init_body_host, init_body_forms.
    destruct (CompositeField.get_form field); [done |].
    destruct (CompositeField.get_form f); [| done].
    by rewrite get_setitem, decide_False.
Qed.

Lemma init_loop_formsets_get l self name field :
  NoDup l.*1 → (name, field) ∈ l →
  SortedDict.get name (formsets (foldl init_body self l))
  = match CompositeField.get_formset field with
    | Some get_formset => Some (get_formset (host self) name)
    | None => SortedDict.get name (formsets self)
    end.
Proof.
  revert self. induction l as [|[n f] l IH]; intros self Hnd Hin.
  { by apply elem_of_nil in Hin. }
  rewrite fmap_cons in Hnd. apply NoDup_cons in Hnd as [Hn Hnd].
  cbn [foldl]. apply elem_of_cons in Hin as [[= <- <-]|Hin].
  - rewrite init_loop_formsets_get_other by done. rewrite init_body_formsets.
    destruct (CompositeField.get_formset field); [| done].
    by rewrite get_setitem, decide_True.
  - assert (n ≠ name).
    { intros ->. apply Hn. apply list_elem_of_fmap. by exists (name, field). }
    rewrite (IH _ Hnd Hin), init_body_host, init_body_formsets.
    destruct (CompositeField.get_formset field); [done |].
    destruct (CompositeField.get_formset f); [| done].
    by rewrite get_setitem, decide_False.
Qed.

(** X8: The constructor builds a well formed instance.  It leaves the state of
    the host's initialiser and the class mapping as they are; and for every
    declared field, what is stored under the field's name in [forms] is what
    the field's [get_form] returns for that host state and that name (nothing
    is stored if the field has no [get_form]), and likewise for [formsets]
    and [get_formset]. *)
Theorem init_stores_what_the_factories_return
    (cls : SortedDict.t CompositeField.t) (h : HostForm)
    (name : string) (field : CompositeField.t) :
  SortedDict.wf cls →
  (name, field) ∈ SortedDict.items cls →
  let self := CompositeFormMixin.__init__ cls h in
  wf_form self
  ∧ host self = h
  ∧ composite_fields self = cls
  ∧ SortedDict.get name (forms self)
    = (fun get_form => get_form h name) <$> CompositeField.get_form field
  ∧ SortedDict.get name (formsets self)
    = (fun get_formset => get_formset h name)
        <$> CompositeField.get_formset field.
Proof.
  intros Hwf Hin self. subst self.
  split; [by apply init_wf_form |].
  unfold CompositeFormMixin.__init__, CompositeFormMixin._init_composite_fields.
  rewrite init_loop_host, init_loop_composite_fields.
  split; [done |]. split; [done |]. split.
  - rewrite (init_loop_forms_get _ _ name field) by done.
    by destruct (CompositeField.get_form field).
  - rewrite (init_loop_formsets_get _ _ name field) by done.
    by destruct (CompositeField.get_formset field).
Qed.

Lemma init_stores_witness :
  SortedDict.wf Save_example.cls
  ∧ ("notes", Save_example.notes) ∈ SortedDict.items Save_example.cls
  ∧ SortedDict.get "notes" (forms Save_example.parent)
    = Some (mkComposite (k:=KForm) true [] None)
  ∧ SortedDict.get "notes" (formsets Save_example.parent) = None.
Proof.
  assert (Hcls : SortedDict.wf Save_example.cls).
  { apply (bool_decide_unpack _). by vm_compute. }
  assert (Hin : ("notes", Save_example.notes)
                ∈ SortedDict.items Save_example.cls).
  { right. left. }
  split; [exact Hcls |]. split; [exact Hin |].
  destruct (init_stores_what_the_factories_return
              Save_example.cls Django.bound_form "notes" Save_example.notes
              Hcls Hin) as (_ & _ & _ & Hform & Hformset).
  split; [exact Hform | exact Hformset].
Defined.

(** The calls the constructor makes for one field. *)
Definition factory_calls (entry : string * CompositeField.t) : list event :=
  match CompositeField.get_form entry.2 with
  | Some _ => [EvGetForm entry.1]
  | None => []
  end
  ++ match CompositeField.get_formset entry.2 with
     | Some _ => [EvGetFormset entry.1]
     | None => []
     end.

Lemma init_loop_log l self :
  log (foldl init_body self l) = log self ++ mjoin (factory_calls <$> l).
Proof.
  revert self. induction l as [|[name field] l IH]; intros self.
  - cbn. by rewrite app_nil_r.
  - cbn [foldl]. rewrite IH, fmap_cons. cbn [mjoin list_join].
    rewrite !app_assoc. f_equal. unfold factory_calls. cbn [fst snd].
    by destruct (CompositeField.get_form field),
                (CompositeField.get_formset field);
      cbn; rewrite <- ?app_assoc, ?app_nil_r.
Qed.

(** X9: The calls the constructor makes, for every class mapping: field by
    field in declaration order, [get_form] (if declared) and then
    [get_formset] (if declared), each once. *)
Theorem init_calls_factories_in_declaration_order
    (cls : SortedDict.t CompositeField.t) (h : HostForm) :
  log (CompositeFormMixin.__init__ cls h)
  = mjoin (factory_calls <$> SortedDict.items cls).
Proof.
  unfold CompositeFormMixin.__init__, CompositeFormMixin._init_composite_fields.
  by rewrite init_loop_log.
Qed.

(** ** Validity of the parent *)

(** X10: [is_valid()] on a parent that has not been validated yet.  An unbound
    parent is invalid and nothing is validated.  A bound parent is validated
    once, composites included, and it is valid exactly when the host's own
    validation found no error and every sub-form and every sub-formset is
    valid; asking again gives the same answer without validating again. *)
Theorem is_valid_iff_host_and_every_composite_valid
    (super_full_clean : HostForm → HostForm) (self : Form)
    (e0 : gmap string errval) :
  SortedDict.wf (forms self) → SortedDict.wf (formsets self) →
  _errors (host self) = None →
  _errors (super_full_clean (host self)) = Some e0 →
  (is_bound (host self) = false →
   CompositeFormMixin.is_valid super_full_clean self = Some (false, self))
  ∧ (is_bound (host self) = true →
     ∃ valid self',
       CompositeFormMixin.is_valid super_full_clean self = Some (valid, self')
       ∧ CompositeFormMixin.full_clean super_full_clean self = Some self'
       ∧ (valid = true
          ↔ e0 = ∅
            ∧ (∀ name form, SortedDict.get name (forms self) = Some form →
                            c_is_valid form = true)
            ∧ (∀ name formset,
                 SortedDict.get name (formsets self) = Some formset →
                 c_is_valid formset = true))
       ∧ (is_bound (host self') = true →
          CompositeFormMixin.is_valid super_full_clean self'
          = Some (valid, self'))).
Proof.
  intros Hforms Hformsets Hfresh He0. split.
  - intros Hunbound.
    unfold CompositeFormMixin.is_valid, BaseForm.is_valid. by rewrite Hunbound.
  - intros Hbound.
    destruct (full_clean_errors super_full_clean self e0 Hforms Hformsets He0)
      as (self' & e & Hclean & He & _ & _ & _ & _ & Hlookup).
    exists (bool_decide (size e = 0)), self'. split_and!.
    + unfold CompositeFormMixin.is_valid, BaseForm.is_valid, BaseForm.errors.
      rewrite Hbound, Hfresh.
      change (CompositeFormMixin.full_clean super_full_clean self ≫= _)
        with (CompositeFormMixin.full_clean super_full_clean self
              ≫= fun self => Some (_errors (host self), self)).
      rewrite Hclean. cbn. by rewrite He.
    + done.
    + rewrite bool_decide_eq_true, map_size_empty_iff. split.
      * intros ->. split_and!.
        -- apply map_eq. intros key. rewrite lookup_empty.
           pose proof (Hlookup key) as Hk. rewrite lookup_empty in Hk.
           destruct (formset_error self key); [done |].
           by destruct (form_error self key).
        -- intros name form Hget.
           pose proof (Hlookup name) as Hk. rewrite lookup_empty in Hk.
           unfold form_error in Hk. rewrite Hget in Hk.
           destruct (formset_error self name); [done |].
           by destruct (c_is_valid form).
        -- intros name formset Hget.
           pose proof (Hlookup name) as Hk. rewrite lookup_empty in Hk.
           unfold formset_error in Hk. rewrite Hget in Hk.
           by destruct (c_is_valid formset).
      * intros (-> & Hf & Hfs). apply map_eq. intros key.
        rewrite Hlookup, !lookup_empty. unfold formset_error, form_error.
        destruct (SortedDict.get key (formsets self)) as [formset|] eqn:Hgfs.
        -- rewrite (Hfs key formset Hgfs).
           destruct (SortedDict.get key (forms self)) as [form|] eqn:Hgf;
             [| done].
           by rewrite (Hf key form Hgf).
        -- destruct (SortedDict.get key (forms self)) as [form|] eqn:Hgf;
             [| done].
           by rewrite (Hf key form Hgf).
    + intros Hbound'.
      unfold CompositeFormMixin.is_valid, BaseForm.is_valid, BaseForm.errors.
      by rewrite Hbound', He.
Qed.

Lemma is_valid_iff_witness :
  SortedDict.wf (forms C6_example.two_forms)
  ∧ SortedDict.wf (formsets C6_example.two_forms)
  ∧ _errors (host C6_example.two_forms) = None
  ∧ _errors (Django.full_clean ∅ (host C6_example.two_forms)) = Some ∅
  ∧ ∃ self',
      CompositeFormMixin.is_valid (Django.full_clean ∅) C6_example.two_forms
      = Some (false, self').
Proof.
  assert (Hforms : SortedDict.wf (forms C6_example.two_forms)).
  { apply (bool_decide_unpack _). by vm_compute. }
  assert (Hformsets : SortedDict.wf (formsets C6_example.two_forms)).
  { apply (bool_decide_unpack _). by vm_compute. }
  split_and!; [done | done | reflexivity | reflexivity |].
  destruct (is_valid_iff_host_and_every_composite_valid
              (Django.full_clean ∅) C6_example.two_forms ∅
              Hforms Hformsets eq_refl eq_refl) as [_ Hbound].
  destruct (Hbound eq_refl) as (valid & self' & Hvalid & _ & Hiff & _).
  exists self'. rewrite Hvalid. do 2 f_equal.
  destruct valid; [| done].
  destruct (proj1 Hiff eq_refl) as (_ & Hf & _).
  by specialize (Hf "B" C6_example.B eq_refl).
Defined.

(** ** More on the declaration collector *)

Lemma first_occurrences_sublist l : first_occurrences l `sublist_of` l.
Proof.
  induction l as [|x l IH]; [done |]. cbn.
  apply sublist_skip. etrans; [apply sublist_filter | done].
Qed.

Lemma NoDup_first_occurrences l : NoDup (first_occurrences l).
Proof.
  induction l as [|x l IH]; [constructor |]. cbn.
  apply NoDup_cons. split.
  - rewrite list_elem_of_filter. by intros [? _].
  - by apply NoDup_filter.
Qed.

Lemma first_occurrences_absorb l1 l2 :
  first_occurrences (first_occurrences l1 ++ l2) = first_occurrences (l1 ++ l2).
Proof.
  rewrite !first_occurrences_app.
  rewrite (first_occurrences_NoDup (first_occurrences l1))
    by apply NoDup_first_occurrences.
  f_equal. apply list_filter_iff. intros n.
  by rewrite elem_of_first_occurrences.
Qed.

Lemma get_app {V : Type} (d1 d2 : SortedDict.t V) key :
  SortedDict.get key (d1 ++ d2)
  = match SortedDict.get key d1 with
    | Some v => Some v
    | None => SortedDict.get key d2
    end.
Proof.
  induction d1 as [|[k v] d1 IH]; [done |]. cbn.
  by destruct (decide (k = key)).
Qed.

(** Looking up in a dictionary built pair by pair: the last pair with that
    key decides. *)
Lemma get_foldl_setitem {V : Type} (d : SortedDict.t V) l key :
  SortedDict.get key
    (foldl (fun d kv => SortedDict.setitem kv.1 kv.2 d) d l)
  = match SortedDict.get key (reverse l) with
    | Some v => Some v
    | None => SortedDict.get key d
    end.
Proof.
  revert d. induction l as [|[k v] l IH]; intros d; [done |].
  cbn [foldl fst snd]. rewrite IH, reverse_cons, get_app, get_setitem.
  destruct (SortedDict.get key (reverse l)); [done |].
  cbn. by destruct (decide (k = key)).
Qed.

Lemma get_of_list {V : Type} (l : list (string * V)) key :
  SortedDict.get key (SortedDict.of_list l) = SortedDict.get key (reverse l).
Proof.
  unfold SortedDict.of_list. rewrite get_foldl_setitem.
  by destruct (SortedDict.get key (reverse l)).
Qed.

Lemma of_list_wf {V : Type} (d : SortedDict.t V) :
  SortedDict.wf d → SortedDict.of_list d = d.
Proof.
  intros Hwf. unfold SortedDict.of_list, SortedDict.empty.
  assert (Hgen : ∀ pre : SortedDict.t V,
            NoDup (pre ++ d).*1 →
            foldl (fun d kv => SortedDict.setitem kv.1 kv.2 d) pre d
            = pre ++ d).
  { clear Hwf. induction d as [|[k v] d IH]; intros pre Hnd.
    - by rewrite app_nil_r.
    - cbn [foldl fst snd].
      assert (Hfresh : k ∉ SortedDict.keys pre).
      { rewrite fmap_app, fmap_cons in Hnd.
        apply NoDup_app in Hnd as (_ & Hdisj & _).
        intros Hin. apply (Hdisj k Hin). by left. }
      assert (Hset : SortedDict.setitem k v pre = pre ++ [(k, v)]).
      { clear -Hfresh. unfold SortedDict.keys in Hfresh.
        induction pre as [|[k' v'] pre IH]; [done |].
        rewrite fmap_cons in Hfresh.
        apply not_elem_of_cons in Hfresh as [Hne Hfresh].
        cbn. rewrite decide_False by done. by rewrite IH. }
      rewrite Hset, IH; [by rewrite <- app_assoc |].
      by rewrite <- app_assoc. }
  by apply (Hgen []).
Qed.

(** X11: The collected mapping, for every list of bases and every namespace: no
    name occurs twice in it, and its names are exactly the names of the
    bases' mappings together with the names the class body binds to
    composite fields. *)
Theorem collected_mapping_has_each_name_once
    (bases : list base_class) (attrs : list (string * attr_value)) :
  let composite_fields := (get_declared_composite_fields bases attrs).1 in
  SortedDict.wf composite_fields
  ∧ ∀ name,
      name ∈ SortedDict.keys composite_fields
      ↔ name ∈ (inherited_items bases).*1
        ∨ name ∈ (declared_fields attrs).*1.
Proof.
  intros cf. subst cf. unfold SortedDict.wf. rewrite collected_keys. split.
  - apply NoDup_first_occurrences.
  - intros name.
    by rewrite elem_of_first_occurrences, elem_of_app, sort_by_counter_perm.
Qed.

(** X12: The field object the collected mapping holds under a name.  A name the
    class body binds to a composite field holds that field, whatever the
    bases hold under it; any other name holds what the last base that has
    it holds (not the first, as attribute lookup along the bases would). *)
Theorem collected_mapping_holds_the_latest_declaration
    (bases : list base_class) (attrs : list (string * attr_value)) :
  NoDup attrs.*1 →
  let composite_fields := (get_declared_composite_fields bases attrs).1 in
  (∀ name field,
     (name, AComposite field) ∈ attrs →
     SortedDict.get name composite_fields = Some field)
  ∧ (∀ name,
       name ∉ (declared_fields attrs).*1 →
       SortedDict.get name composite_fields
       = SortedDict.get name (reverse (inherited_items bases))).
Proof.
  intros Hattrs cf. subst cf.
  unfold get_declared_composite_fields. cbn [fst].
  rewrite merge_bases_eq.
  assert (Hown : NoDup (sort_by_counter (declared_fields attrs)).*1).
  { rewrite sort_by_counter_perm. by apply declared_fields_names_NoDup. }
  split.
  - intros name field Hin.
    rewrite get_of_list, reverse_app, get_app.
    rewrite (elem_of_get name field); [done | |].
    + unfold SortedDict.wf, SortedDict.keys.
      by rewrite fmap_reverse, reverse_Permutation.
    + unfold SortedDict.items. rewrite elem_of_reverse, sort_by_counter_perm.
      unfold declared_fields. apply list_elem_of_omap.
      by exists (name, AComposite field).
  - intros name Hname.
    rewrite get_of_list, reverse_app, get_app.
    rewrite get_None_not_elem; [done |].
    unfold SortedDict.keys.
    by rewrite fmap_reverse, elem_of_reverse, sort_by_counter_perm.
Qed.

Lemma collected_mapping_holds_witness :
  NoDup C1_example.attrs.*1
  ∧ (CompositeField.creation_counter
       <$> SortedDict.get "a"
             (get_declared_composite_fields [C1_example.Base]
                C1_example.attrs).1) = Some 7.
Proof.
  assert (Hattrs : NoDup C1_example.attrs.*1).
  { apply (bool_decide_unpack _). by vm_compute. }
  split; [exact Hattrs |].
  destruct (collected_mapping_holds_the_latest_declaration
              [C1_example.Base] C1_example.attrs Hattrs) as [Hown _].
  rewrite (Hown "a" (C1_example.field 7)); [done |].
  do 3 right. left.
Defined.

Lemma declared_fields_popped attrs :
  declared_fields (filter (fun entry => is_composite entry = false) attrs) = [].
Proof.
  unfold declared_fields.
  induction attrs as [|[name value] attrs IH]; [done |].
  destruct value as [field|description].
  - by rewrite filter_cons_False by done.
  - rewrite filter_cons_True by done. cbn. by rewrite IH.
Qed.

(** X13: The collector removes from the namespace what it collects.  The
    namespace it leaves holds no composite field and keeps every other
    entry, in order.  Running the collector again on that namespace
    therefore finds no field of the class itself: the second mapping holds
    the inherited fields only. *)
Theorem collector_pops_the_fields_it_collects
    (bases : list base_class) (attrs : list (string * attr_value)) :
  let popped := (get_declared_composite_fields bases attrs).2 in
  declared_fields popped = []
  ∧ (∀ entry, entry ∈ popped ↔ entry ∈ attrs ∧ is_composite entry = false)
  ∧ popped `sublist_of` attrs
  ∧ get_declared_composite_fields bases popped
    = (SortedDict.of_list (inherited_items bases), popped).
Proof.
  intros popped.
  assert (Hpopped :
    popped = filter (fun entry => is_composite entry = false) attrs)
    by reflexivity.
  rewrite Hpopped. clear Hpopped popped. split_and!.
  - apply declared_fields_popped.
  - intros entry. rewrite list_elem_of_filter. tauto.
  - apply sublist_filter.
  - unfold get_declared_composite_fields. rewrite merge_bases_eq.
    fold (declared_fields
            (filter (fun entry => is_composite entry = false) attrs)).
    rewrite declared_fields_popped. cbn [sort_by_counter foldr].
    rewrite app_nil_r. f_equal.
    rewrite list_filter_filter. apply list_filter_iff. tauto.
Qed.

(** Two sorted lists with the same elements are equal when no two elements
    have the same counter. *)
Lemma sorted_by_counter_unique (l1 l2 : list (string * CompositeField.t)) :
  StronglySorted counter_le l1 → StronglySorted counter_le l2 →
  l1 ≡ₚ l2 →
  NoDup ((fun x => CompositeField.creation_counter x.2) <$> l1) →
  l1 = l2.
Proof.
  intros Hs1. revert l2. induction Hs1 as [|x l1 Hs1 IH Hx]; intros l2 Hs2 Hp Hnd.
  - by apply Permutation_nil_l in Hp.
  - destruct Hs2 as [|y l2 Hs2 Hy].
    + by apply Permutation_nil_r in Hp.
    + rewrite fmap_cons in Hnd. apply NoDup_cons in Hnd as [Hcx Hnd].
      assert (x = y) as <-.
      { assert (Hxin : x ∈ y :: l2) by (rewrite <- Hp; by left).
        assert (Hyin : y ∈ x :: l1) by (rewrite Hp; by left).
        apply elem_of_cons in Hxin as [?|Hxin]; [done |].
        apply elem_of_cons in Hyin as [?|Hyin]; [done |].
        exfalso. apply Hcx.
        rewrite Forall_forall in Hx, Hy.
        specialize (Hx y Hyin). specialize (Hy x Hxin).
        unfold counter_le in Hx, Hy.
        apply list_elem_of_fmap. exists y. split; [lia | done]. }
      f_equal. apply IH; [done | | done].
      by apply Permutation_cons_inv in Hp.
Qed.

(** X14: The collected mapping does not depend on the order in which the
    namespace is iterated, provided no two composite fields of the class
    body have the same creation counter. *)
Theorem collected_mapping_ignores_namespace_order
    (bases : list base_class) (attrs1 attrs2 : list (string * attr_value)) :
  attrs1 ≡ₚ attrs2 →
  NoDup ((fun x => CompositeField.creation_counter x.2)
           <$> declared_fields attrs1) →
  (get_declared_composite_fields bases attrs1).1
  = (get_declared_composite_fields bases attrs2).1.
Proof.
  intros Hperm Hcounters.
  unfold get_declared_composite_fields. cbn [fst].
  rewrite !merge_bases_eq. do 2 f_equal.
  fold (declared_fields attrs1). fold (declared_fields attrs2).
  apply sorted_by_counter_unique.
  - apply sort_by_counter_sorted.
  - apply sort_by_counter_sorted.
  - rewrite !sort_by_counter_perm. unfold declared_fields. by rewrite Hperm.
  - by rewrite sort_by_counter_perm.
Qed.

Lemma collected_mapping_ignores_witness :
  C1_example.attrs ≡ₚ reverse C1_example.attrs
  ∧ NoDup ((fun x => CompositeField.creation_counter x.2)
             <$> declared_fields C1_example.attrs)
  ∧ SortedDict.keys
      (get_declared_composite_fields [] (reverse C1_example.attrs)).1
    = ["b"; "c"; "a"].
Proof.
  assert (Hperm : C1_example.attrs ≡ₚ reverse C1_example.attrs).
  { symmetry. apply reverse_Permutation. }
  assert (Hnd : NoDup ((fun x => CompositeField.creation_counter x.2)
                         <$> declared_fields C1_example.attrs)).
  { apply (bool_decide_unpack _). by vm_compute. }
  split; [exact Hperm |]. split; [exact Hnd |].
  rewrite <- (collected_mapping_ignores_namespace_order
                [] C1_example.attrs (reverse C1_example.attrs) Hperm Hnd).
  reflexivity.
Defined.

(** X15: Bases that have no [composite_fields] contribute nothing: leaving them
    out of the list of bases changes neither the mapping nor the namespace
    the collector returns. *)
Theorem bases_without_mapping_are_skipped
    (bases : list base_class) (attrs : list (string * attr_value)) :
  get_declared_composite_fields
    (filter (fun base => is_Some (base_composite_fields base)) bases) attrs
  = get_declared_composite_fields bases attrs.
Proof.
  unfold get_declared_composite_fields. rewrite !merge_bases_eq.
  do 3 f_equal.
  assert (Hcons : ∀ base rest,
            inherited_items (base :: rest)
            = default [] (SortedDict.items <$> base_composite_fields base)
              ++ inherited_items rest) by reflexivity.
  induction bases as [|base bases IH]; [done |].
  destruct (base_composite_fields base) as [d|] eqn:Hd.
  - rewrite filter_cons_True by (by rewrite Hd).
    by rewrite !Hcons, IH.
  - rewrite filter_cons_False by (rewrite Hd; by intros [? ?]).
    by rewrite Hcons, Hd, IH.
Qed.

(** X16: A class whose body declares no composite field and that has a single
    base with a well formed mapping gets exactly the base's mapping: same
    names, same order, same fields. *)
Theorem class_without_fields_inherits_the_mapping
    (base_fields : SortedDict.t CompositeField.t)
    (attrs : list (string * attr_value)) :
  SortedDict.wf base_fields →
  declared_fields attrs = [] →
  (get_declared_composite_fields [mkBase (Some base_fields)] attrs).1
  = base_fields.
Proof.
  intros Hwf Hnone.
  unfold get_declared_composite_fields. cbn [fst].
  rewrite merge_bases_eq. fold (declared_fields attrs). rewrite Hnone.
  cbn. rewrite !app_nil_r. by apply of_list_wf.
Qed.

Lemma class_without_fields_witness :
  SortedDict.wf Save_example.cls
  ∧ declared_fields [("title", AOther "CharField")] = []
  ∧ (get_declared_composite_fields [mkBase (Some Save_example.cls)]
       [("title", AOther "CharField")]).1
    = Save_example.cls.
Proof.
  assert (Hcls : SortedDict.wf Save_example.cls).
  { apply (bool_decide_unpack _). by vm_compute. }
  split; [exact Hcls |]. split; [reflexivity |].
  exact (class_without_fields_inherits_the_mapping
           Save_example.cls [("title", AOther "CharField")] Hcls eq_refl).
Defined.

(** ** The metaclasses

    Each [__new__] collects the fields, binds the mapping to
    [composite_fields] in the namespace and hands bases and namespace to the
    constructor of the host's metaclass, a parameter here.  The binding is
    passed beside the namespace, from which an earlier binding of that name
    is dropped. *)

Definition bind_composite_fields (attrs : list (string * attr_value))
    : list (string * attr_value) :=
  filter (fun entry => entry.1 ≠ "composite_fields") attrs.

Module DeclerativeCompositeFieldsMetaclass.
Section new.
Context {Class : Type}.
(** [type.__new__] *)
Variable super_new :
  list base_class → SortedDict.t CompositeField.t →
  list (string * attr_value) → Class.

Definition __new__ (bases : list base_class)
    (attrs : list (string * attr_value)) : Class :=
  let '(composite_fields, attrs) :=
    get_declared_composite_fields bases attrs in
  super_new bases composite_fields (bind_composite_fields attrs).
End new.
End DeclerativeCompositeFieldsMetaclass.

Module CompositeFormMixinMetaclass.
Section new.
Context {Class : Type}.
(** [DeclarativeFieldsMetaclass.__new__], called directly. *)
Variable DeclarativeFieldsMetaclass_new :
  list base_class → SortedDict.t CompositeField.t →
  list (string * attr_value) → Class.

Definition __new__ (bases : list base_class)
    (attrs : list (string * attr_value)) : Class :=
  let '(composite_fields, attrs) :=
    get_declared_composite_fields bases attrs in
  DeclarativeFieldsMetaclass_new bases composite_fields
    (bind_composite_fields attrs).
End new.
End CompositeFormMixinMetaclass.

Module CompositeModelFormMetaclass.
Section new.
Context {Class : Type}.
(** [ModelFormMetaclass.__new__], called directly. *)
Variable ModelFormMetaclass_new :
  list base_class → SortedDict.t CompositeField.t →
  list (string * attr_value) → Class.

Definition __new__ (bases : list base_class)
    (attrs : list (string * attr_value)) : Class :=
  let '(composite_fields, attrs) :=
    get_declared_composite_fields bases attrs in
  ModelFormMetaclass_new bases composite_fields (bind_composite_fields attrs).
End new.
End CompositeModelFormMetaclass.

(** A class statement, as later class statements see its result: a base
    whose [composite_fields] is the collected mapping. *)
Definition define_class (bases : list base_class)
    (attrs : list (string * attr_value)) : base_class :=
  CompositeFormMixinMetaclass.__new__
    (fun _ composite_fields _ => mkBase (Some composite_fields)) bases attrs.

(** A chain of class statements, each class the only base of the next. *)
Fixpoint subclass_chain (base : base_class)
    (bodies : list (list (string * attr_value))) : base_class :=
  match bodies with
  | [] => base
  | attrs :: bodies => subclass_chain (define_class [base] attrs) bodies
  end.

(** The names a class body declares, in declaration order. *)
Definition declared_names (attrs : list (string * attr_value)) : list string :=
  (sort_by_counter (declared_fields attrs)).*1.

Lemma define_class_mapping bases attrs :
  base_composite_fields (define_class bases attrs)
  = Some (get_declared_composite_fields bases attrs).1.
Proof.
  unfold define_class, CompositeFormMixinMetaclass.__new__.
  by destruct (get_declared_composite_fields bases attrs).
Qed.

Lemma inherited_items_single base :
  inherited_items [base]
  = default [] (SortedDict.items <$> base_composite_fields base).
Proof. unfold inherited_items. cbn. by rewrite app_nil_r. Qed.

(** X17: Declaration order through a chain of subclasses.  For every root class
    and every non-empty chain of class bodies, the last class has a well
    formed mapping whose key order is: the root's names, then the names of
    each body in turn, from the first subclass to the last, each in its
    declaration order, every name at its first occurrence.  When no name is
    declared twice along the chain this is the plain concatenation. *)
Theorem subclass_chain_keeps_declaration_order
    (root : base_class) (attrs : list (string * attr_value))
    (bodies : list (list (string * attr_value))) :
  let names := (inherited_items [root]).*1
               ++ mjoin (declared_names <$> attrs :: bodies) in
  ∃ composite_fields,
    base_composite_fields (subclass_chain root (attrs :: bodies))
    = Some composite_fields
    ∧ SortedDict.wf composite_fields
    ∧ SortedDict.keys composite_fields = first_occurrences names
    ∧ (NoDup names → SortedDict.keys composite_fields = names).
Proof.
  intros names.
  assert (Hkeys : ∃ composite_fields,
    base_composite_fields (subclass_chain root (attrs :: bodies))
    = Some composite_fields
    ∧ SortedDict.keys composite_fields = first_occurrences names).
  { subst names. revert root attrs.
    assert (Hjoin : ∀ body rest,
              mjoin (declared_names <$> body :: rest)
              = declared_names body ++ mjoin (declared_names <$> rest))
      by reflexivity.
    induction bodies as [|attrs' bodies IH]; intros root attrs.
    - exists (get_declared_composite_fields [root] attrs).1.
      cbn [subclass_chain]. split; [apply define_class_mapping |].
      rewrite collected_keys, Hjoin.
      change (mjoin (declared_names <$> [])) with (@nil string).
      by rewrite app_nil_r.
    - destruct (IH (define_class [root] attrs) attrs') as (cf & Hcf & Hk).
      exists cf. split; [exact Hcf |]. rewrite Hk.
      assert (Hroot : (inherited_items [define_class [root] attrs]).*1
                      = SortedDict.keys
                          (get_declared_composite_fields [root] attrs).1).
      { by rewrite inherited_items_single, define_class_mapping. }
      rewrite Hroot, collected_keys, first_occurrences_absorb.
      f_equal. rewrite (Hjoin attrs). by rewrite <- app_assoc. }
  destruct Hkeys as (cf & Hcf & Hk). exists cf. split_and!; [done | | done |].
  - unfold SortedDict.wf. rewrite Hk. apply NoDup_first_occurrences.
  - intros Hnd. rewrite Hk. by apply first_occurrences_NoDup.
Qed.

(** ** A composite that is not a declared field *)

Lemma save_composite_frame k commit self saved entry self1 saved1 :
  CompositeModelFormMixin.save_composite k commit (self, saved) entry
  = Some (self1, saved1) →
  composite_fields self1 = composite_fields self
  ∧ (k = KForm → formsets self1 = formsets self).
Proof.
  destruct entry as [name c].
  unfold CompositeModelFormMixin.save_composite.
  destruct (SortedDict.get name (composite_fields self)) as [field|];
    [| done].
  cbn [mbind option_bind].
  destruct (CompositeField.save field) as [save|]; intros [= <- <-].
  - rewrite composite_fields_set_composites. split; [done |].
    by intros ->.
  - done.
Qed.

Lemma save_loop_frame k commit l :
  ∀ self saved self1 saved1,
    foldlM (CompositeModelFormMixin.save_composite k commit) (self, saved) l
    = Some (self1, saved1) →
    composite_fields self1 = composite_fields self
    ∧ (k = KForm → formsets self1 = formsets self).
Proof.
  induction l as [|entry l IH]; intros self saved self1 saved1 Hloop.
  - by injection Hloop as <- <-.
  - cbn [foldlM] in Hloop.
    destruct (CompositeModelFormMixin.save_composite k commit (self, saved)
                entry) as [[self' saved']|] eqn:Hstep; [| done].
    cbn [mbind option_bind] in Hloop.
    apply save_composite_frame in Hstep as [Hcf Hfs].
    apply IH in Hloop as [Hcf1 Hfs1].
    split; [congruence |]. intros Hk. rewrite Hfs1, Hfs; done.
Qed.

Lemma save_loop_KeyError k commit l :
  ∀ self saved name,
    name ∈ l.*1 →
    SortedDict.get name (composite_fields self) = None →
    foldlM (CompositeModelFormMixin.save_composite k commit) (self, saved) l
    = None.
Proof.
  induction l as [|[n c] l IH]; intros self saved name Hin Hmissing.
  { by apply elem_of_nil in Hin. }
  cbn [foldlM].
  destruct (CompositeModelFormMixin.save_composite k commit (self, saved)
              (n, c)) as [[self' saved']|] eqn:Hstep; [| done].
  cbn [mbind option_bind].
  rewrite fmap_cons in Hin. apply elem_of_cons in Hin as [->|Hin].
  - unfold CompositeModelFormMixin.save_composite in Hstep.
    cbn [fst] in Hmissing. by rewrite Hmissing in Hstep.
  - apply save_composite_frame in Hstep as [Hcf _].
    apply (IH _ _ name Hin). by rewrite Hcf.
Qed.

(** X18: [save_forms], [save_formsets] and [save] look every composite up in
    [composite_fields] by its key.  When a key of [forms] or of [formsets]
    is not a declared field, the lookup fails and [save] raises instead of
    returning the saved object, whatever the other composites are. *)
Theorem save_raises_on_a_composite_that_is_not_a_field
    (super_save : bool → HostForm → nat * HostForm) (commit : bool)
    (self : Form) (name : string) :
  name ∈ SortedDict.keys (forms self)
  ∨ name ∈ SortedDict.keys (formsets self) →
  SortedDict.get name (composite_fields self) = None →
  CompositeModelFormMixin.save super_save commit self = None
  ∧ (name ∈ SortedDict.keys (forms self) →
     CompositeModelFormMixin.save_forms commit self = None)
  ∧ (name ∈ SortedDict.keys (formsets self) →
     CompositeModelFormMixin.save_formsets commit self = None).
Proof.
  intros Hin Hmissing.
  assert (Hforms : ∀ self0,
            composite_fields self0 = composite_fields self →
            forms self0 = forms self →
            name ∈ SortedDict.keys (forms self) →
            CompositeModelFormMixin.save_forms commit self0 = None).
  { intros self0 Hcf Hf Hk. unfold CompositeModelFormMixin.save_forms.
    rewrite (save_loop_KeyError KForm commit _ _ _ name); [done | |].
    - unfold SortedDict.items. by rewrite Hf.
    - by rewrite Hcf. }
  assert (Hformsets : ∀ self0,
            composite_fields self0 = composite_fields self →
            formsets self0 = formsets self →
            name ∈ SortedDict.keys (formsets self) →
            CompositeModelFormMixin.save_formsets commit self0 = None).
  { intros self0 Hcf Hf Hk. unfold CompositeModelFormMixin.save_formsets.
    rewrite (save_loop_KeyError KFormset commit _ _ _ name); [done | |].
    - unfold SortedDict.items. by rewrite Hf.
    - by rewrite Hcf. }
  split_and!; [| by apply Hforms | by apply Hformsets].
  unfold CompositeModelFormMixin.save.
  destruct (super_save commit (host self)) as [saved_obj h].
  set (self0 := log_event (EvSuperSave commit) (set_host h self)).
  destruct (CompositeModelFormMixin.save_forms commit self0)
    as [self1|] eqn:Hphase; [| done].
  cbn [mbind option_bind].
  destruct Hin as [Hin|Hin].
  { by rewrite (Hforms self0) in Hphase. }
  rewrite Hformsets; [done | | | done].
  - unfold CompositeModelFormMixin.save_forms in Hphase.
    destruct (foldlM _ _ _) as [[self' saved']|] eqn:Hloop; [| done].
    cbn [mbind option_bind] in Hphase. injection Hphase as <-.
    apply save_loop_frame in Hloop as [Hcf _].
    rewrite extend_save_m2m_eq. cbn [composite_fields set_host]. done.
  - unfold CompositeModelFormMixin.save_forms in Hphase.
    destruct (foldlM _ _ _) as [[self' saved']|] eqn:Hloop; [| done].
    cbn [mbind option_bind] in Hphase. injection Hphase as <-.
    apply save_loop_frame in Hloop as [_ Hfs].
    rewrite extend_save_m2m_eq. cbn [formsets set_host]. by apply Hfs.
Qed.

Lemma save_raises_witness :
  let self :=
    set_forms (SortedDict.setitem "extra" C6_example.A
                 (forms Save_example.parent)) Save_example.parent in
  ("extra" ∈ SortedDict.keys (forms self)
   ∨ "extra" ∈ SortedDict.keys (formsets self))
  ∧ SortedDict.get "extra" (composite_fields self) = None
  ∧ CompositeModelFormMixin.save Django.save true self = None.
Proof.
  intros self.
  assert (Hin : "extra" ∈ SortedDict.keys (forms self)
                ∨ "extra" ∈ SortedDict.keys (formsets self)).
  { left. do 2 right. left. }
  split; [exact Hin |]. split; [reflexivity |].
  exact (proj1 (save_raises_on_a_composite_that_is_not_a_field
                  Django.save true self "extra" Hin eq_refl)).
Defined.

Lemma subclass_chain_witness :
  let root := mkBase None in
  let body1 := [("b", AComposite (C1_example.field 2));
                ("a", AComposite (C1_example.field 1))] in
  let body2 := [("c", AComposite (C1_example.field 3))] in
  NoDup ((inherited_items [root]).*1
         ++ mjoin (declared_names <$> [body1; body2]))
  ∧ ∃ composite_fields,
      base_composite_fields (subclass_chain root [body1; body2])
      = Some composite_fields
      ∧ SortedDict.keys composite_fields = ["a"; "b"; "c"].
Proof.
  intros root body1 body2.
  assert (Hnd : NoDup ((inherited_items [root]).*1
                       ++ mjoin (declared_names <$> [body1; body2]))).
  { apply (bool_decide_unpack _). by vm_compute. }
  split; [exact Hnd |].
  destruct (subclass_chain_keeps_declaration_order root body1 [body2])
    as (cf & Hcf & _ & _ & Hkeys).
  exists cf. split; [exact Hcf |]. by rewrite (Hkeys Hnd).
Defined.
